(** * Steganographic image authentication: LSB codec, verification matcher
      and attack simulator

    A shallow embedding of the services [SteganographyService],
    [CryptographyService] and [AttackSimulationService] of the server.

    Conventions of the embedding:
    - a Node [Buffer] (a [Uint8Array]) is a [list byte]; a read outside the
      array yields [undefined] (here [None]) and a write outside the array
      is dropped, as for every integer-indexed exotic object;
    - a JavaScript number that the code uses as an index or a counter is a
      [Z]; a position that is negative stands for every index that is not
      a valid array index below the length (negative or fractional
      numbers): the guard [pos < length] lets it through, the read yields
      [undefined] and the write is dropped;
    - a JavaScript string is a [string]; [NaN] is [None];
    - [try]/[catch] and rejected promises are an exception monad [Exc];
    - the collaborators that are not part of the repository (sharp, Node's
      crypto, the database) are fields of a record [Runtime]. *)

From Stdlib Require Import ZArith QArith Ascii String DecimalString Lia.
From Stdlib.Strings Require Import Byte.
From stdpp Require Import base list strings.

Local Open Scope Z_scope.

(** ** JavaScript values *)

Module JS.

(** The numeric value of an element of a [Uint8Array]. *)
Definition byte_val (b : byte) : Z := Z.of_N (Byte.to_N b).

(** Storing a number into a [Uint8Array] keeps it modulo 256. *)
Definition to_uint8 (z : Z) : byte :=
  default x00 (Byte.of_N (Z.to_N (z mod 256))).

(** [buf[pos]]: [undefined] outside the array. *)
Definition get (buf : list byte) (pos : Z) : option byte :=
  if 0 <=? pos then buf !! Z.to_nat pos else None.

(** [buf[pos] = v]: dropped outside the array. *)
Definition set (buf : list byte) (pos : Z) (v : Z) : list byte :=
  if (0 <=? pos) && (pos <? Z.of_nat (length buf))
  then <[Z.to_nat pos := to_uint8 v]> buf
  else buf.

(** [ToInt32] of an element read: [undefined] becomes [NaN], then 0. *)
Definition elem_to_int32 (v : option byte) : Z :=
  from_option byte_val 0 v.

(** [ToInt32] of a number that may be [NaN]. *)
Definition to_int32 (v : option Z) : Z := default 0 v.

(** [parseInt(c)] on a string of one character, radix 10: a decimal digit
    gives its value, any other character gives [NaN]. *)
Definition parseInt_char (c : ascii) : option Z :=
  let n := Z.of_nat (nat_of_ascii c) in
  if (48 <=? n) && (n <=? 57) then Some (n - 48) else None.

(** [n.toString()] for an integer [n]. *)
Definition toString (n : Z) : string := NilZero.string_of_int (Z.to_int n).

(** Numbers as results of floating-point computations: [NaN] or a
    rational. *)
Inductive number : Type :=
| NaN : number
| Num (q : Q) : number.

(** What a [throw] carries: an [Error] object with its message, or any
    other value. *)
Inductive thrown : Type :=
| ErrorObj (message : string) : thrown
| OtherValue : thrown.

(** [error instanceof Error ? error.message : 'Unknown error'] *)
Definition message_of (e : thrown) : string :=
  match e with
  | ErrorObj m => m
  | OtherValue => "Unknown error"
  end.

End JS.

#[global] Instance byte_eq_decision : EqDecision byte := Byte.byte_eq_dec.

(** ** Exceptions *)

Inductive Exc (A : Type) : Type :=
| Return (a : A) : Exc A
| Throw (e : JS.thrown) : Exc A.
Arguments Return {A} a.
Arguments Throw {A} e.

#[global] Instance exc_ret : MRet Exc := fun A a => Return a.

#[global] Instance exc_bind : MBind Exc := fun A B k m =>
  match m with
  | Return a => k a
  | Throw e => Throw e
  end.

#[global] Instance exc_fmap : FMap Exc := fun A B f m =>
  match m with
  | Return a => Return (f a)
  | Throw e => Throw e
  end.

(** [try { body } catch (error) { handler }] *)
Definition try_catch {A : Type} (body : Exc A) (handler : JS.thrown -> Exc A) : Exc A :=
  match body with
  | Return a => Return a
  | Throw e => handler e
  end.

(** ** EmbeddingEngine: [SteganographyService]'s codec *)

Abbreviation buffer_length buf := (Z.of_nat (length buf)) (only parsing).

(** [generateEmbedPositions]: the loop
    [for (let i = 0; i < 2048 && i * step < totalPixels; i++)].
    The loop runs at most 2048 times; [fuel] counts the iterations left. *)
Fixpoint generate_loop (fuel : nat) (i step totalPixels : Z) (positions : list Z) : list Z :=
  match fuel with
  | O => positions
  | S fuel' =>
      if (i <? 2048) && (i * step <? totalPixels)
      then generate_loop fuel' (i + 1) step totalPixels (positions ++ [i * step])
      else positions
  end.

Definition generateEmbedPositions (totalPixels : Z) : list Z :=
  let step := totalPixels / 2048 in
  generate_loop 2048 0 step totalPixels [].

(** One iteration of the loop of [computeImageHash]. *)
Definition clear_step (modifiedData : list byte) (pos : Z) : list byte :=
  if pos <? buffer_length modifiedData
  then JS.set modifiedData pos (Z.land (JS.elem_to_int32 (JS.get modifiedData pos)) 254)
  else modifiedData.

(** The buffer that [computeImageHash] hashes: a copy with the least
    significant bit cleared at every embed position. *)
Definition clearLSBs (pixelData : list byte) (embedPositions : list Z) : list byte :=
  fold_left clear_step embedPositions pixelData.

(** One iteration of the loop of [embedLSB]: [c] is [bits[i]] and [pos] is
    [positions[i]]. *)
Definition embed_step (modifiedData : list byte) (c : ascii) (pos : Z) : list byte :=
  if pos <? buffer_length modifiedData
  then
    let bit := JS.parseInt_char c in
    JS.set modifiedData pos
      (Z.lor (Z.land (JS.elem_to_int32 (JS.get modifiedData pos)) 254) (JS.to_int32 bit))
  else modifiedData.

(** The loop [for (let i = 0; i < bits.length && i < positions.length; i++)]. *)
Fixpoint embed_loop (modifiedData : list byte) (bits : string) (positions : list Z) : list byte :=
  match bits, positions with
  | String c bits', pos :: positions' =>
      embed_loop (embed_step modifiedData c pos) bits' positions'
  | _, _ => modifiedData
  end.

Definition embedLSB (pixelData : list byte) (bits : string) (positions : list Z) : list byte :=
  embed_loop pixelData bits positions.

(** One iteration of the loop of [extractLSB]. *)
Definition extract_step (pixelData : list byte) (bits : string) (pos : Z) : string :=
  if pos <? buffer_length pixelData
  then bits +:+ JS.toString (Z.land (JS.elem_to_int32 (JS.get pixelData pos)) 1)
  else bits.

Definition extractLSB (pixelData : list byte) (positions : list Z) : string :=
  fold_left (extract_step pixelData) positions EmptyString.


(** ** Signatures as bit strings *)

Module Radix.

(** The white space that [parseInt] skips (the ASCII part of it). *)
Definition is_space (c : ascii) : bool :=
  let n := nat_of_ascii c in
  ((9 <=? n) && (n <=? 13))%nat || (n =? 32)%nat.

Fixpoint skip_spaces (s : string) : string :=
  match s with
  | String c s' => if is_space c then skip_spaces s' else s
  | EmptyString => s
  end.

Definition binary_digit (c : ascii) : option Z :=
  if Ascii.eqb c "0" then Some 0 else if Ascii.eqb c "1" then Some 1 else None.

(** The digits of the longest prefix of binary digits, read with the
    value [acc] of the digits before them. *)
Fixpoint binary_prefix (acc : Z) (s : string) : Z :=
  match s with
  | String c s' =>
      match binary_digit c with
      | Some d => binary_prefix (2 * acc + d) s'
      | None => acc
      end
  | EmptyString => acc
  end.

Definition parse_unsigned (s : string) : option Z :=
  match s with
  | String c _ =>
      match binary_digit c with
      | Some _ => Some (binary_prefix 0 s)
      | None => None
      end
  | EmptyString => None
  end.

(** [parseInt(s, 2)]: white space, an optional sign, then binary digits;
    [NaN] when no digit follows. *)
Definition parseInt2 (s : string) : option Z :=
  match skip_spaces s with
  | String c s' =>
      if Ascii.eqb c "-" then Z.opp <$> parse_unsigned s'
      else if Ascii.eqb c "+" then parse_unsigned s'
      else parse_unsigned (String c s')
  | EmptyString => None
  end.

Definition hex_digit (n : Z) : string :=
  match n with
  | 10 => "a" | 11 => "b" | 12 => "c" | 13 => "d" | 14 => "e" | 15 => "f"
  | _ => JS.toString n
  end.

(** [v.toString(16)] for the values [parseInt2] gives on four characters:
    [NaN], or an integer between -7 and 15. *)
Definition toString16 (v : option Z) : string :=
  match v with
  | None => "NaN"
  | Some n => if n <? 0 then "-" +:+ hex_digit (- n) else hex_digit n
  end.

End Radix.

(** [parseInt(char, 16)] on a string of one character. *)
Definition hex_value (c : ascii) : option Z :=
  let n := Z.of_nat (nat_of_ascii c) in
  if (48 <=? n) && (n <=? 57) then Some (n - 48)
  else if (97 <=? n) && (n <=? 102) then Some (n - 87)
  else if (65 <=? n) && (n <=? 70) then Some (n - 55)
  else None.

Definition bit_of (n k : Z) : ascii :=
  if Z.testbit n k then "1"%char else "0"%char.

(** [v.toString(2).padStart(4, '0')] for [v] a value of [hex_value]: the
    four binary digits of a number below 16; [NaN] prints as ["NaN"] and is
    padded to ["0NaN"]. *)
Definition nibble_bits (v : option Z) : string :=
  match v with
  | None => "0NaN"
  | Some n =>
      String (bit_of n 3) (String (bit_of n 2)
        (String (bit_of n 1) (String (bit_of n 0) EmptyString)))
  end.

(** [signatureToBits]: [split('')], [map] and [join('')]. *)
Fixpoint signatureToBits (signature : string) : string :=
  match signature with
  | EmptyString => EmptyString
  | String char rest => nibble_bits (hex_value char) +:+ signatureToBits rest
  end.

(** [bitsToSignature]: the loop [for (let i = 0; i < bits.length; i += 4)]
    reads [bits.substr(i, 4)]; a last group of fewer than four characters
    is dropped. *)
Fixpoint bitsToSignature (bits : string) : string :=
  match bits with
  | String a (String b (String c (String d rest))) =>
      Radix.toString16
        (Radix.parseInt2 (String a (String b (String c (String d EmptyString)))))
      +:+ bitsToSignature rest
  | _ => EmptyString
  end.

Definition is_bit_char (c : ascii) : bool := Ascii.eqb c "0" || Ascii.eqb c "1".

(** [validBits / totalBits * 100] rounded by [Math.round] (half up).
    [0 / 0] is [NaN].  The quotient is taken exactly; the double-precision
    computation of the code agrees with it when [validBits = totalBits]
    ([n / n] is exactly 1), which is the only case that extracted bits
    produce. *)
Definition round_percent (validBits totalBits : Z) : JS.number :=
  if totalBits =? 0 then JS.NaN
  else JS.Num (inject_Z ((200 * validBits + totalBits) / (2 * totalBits))).

Definition calculateIntegrityScore (bits : string) : JS.number :=
  let totalBits := Z.of_nat (String.length bits) in
  let validBits :=
    Z.of_nat (length (List.filter is_bit_char (list_ascii_of_string bits))) in
  round_percent validBits totalBits.

(** [100 - integrityScore] *)
Definition js_minus_from_100 (score : JS.number) : JS.number :=
  match score with
  | JS.NaN => JS.NaN
  | JS.Num q => JS.Num (Qred (100 - q))
  end.

(** ** Records of the store and the collaborators *)

(** The column [embedPositions] is untyped JSON that the code casts to
    [number[]].  For the code it is one of: a value that [!embedPositions]
    rejects ([null]), an array of numbers, or a value that is accepted by
    that test but cannot be iterated (a number, an object), on which
    [for ... of] raises a [TypeError].  A JSON string, which would be
    iterated character by character, is left out. *)
Inductive json_positions : Type :=
| JNull : json_positions
| JArray (positions : list Z) : json_positions
| JNotIterable : json_positions.

Record ImageMetadata : Type := {
  md_artistName : string;
  md_artworkTitle : string;
  md_creationDate : string
}.

Record AuthenticatedImage : Type := {
  id : Z;
  artistName : string;
  artworkTitle : string;
  creationDate : string;
  signatureType : string;
  publicKey : string;
  imageData : string;
  embedPositions : json_positions
}.

(** The result of [sharp(buffer).raw().ensureAlpha().toBuffer(...)]. *)
Record RawImage : Type := {
  data : list byte;
  width : Z;
  height : Z;
  channels : Z
}.

(** The libraries the services call. *)
Record Runtime : Type := {
  (** [createHash('sha256').update(buf).digest('hex')] *)
  sha256_hex : list byte -> string;
  (** [sharp(buf).raw().ensureAlpha().toBuffer({ resolveWithObject: true })] *)
  sharp_raw : list byte -> Exc RawImage;
  (** [createVerify(algorithm)], [update(data)], [end()] and
      [verify(publicKey, signature, 'hex')] *)
  crypto_verify : string -> string -> string -> string -> Exc bool;
  (** [Buffer.from(s, 'base64')] and [buf.toString('base64')] *)
  base64_decode : string -> list byte;
  base64_encode : list byte -> string;
  (** the five transforms of the attack simulator, built on sharp (and on
      [Math.random] for the noise) *)
  applyJPEGCompression : list byte -> Q -> Exc (list byte);
  applyGaussianNoise : list byte -> Q -> Exc (list byte);
  applyCropping : list byte -> Q -> Exc (list byte);
  applyRotation : list byte -> Q -> Exc (list byte);
  applyScaling : list byte -> Q -> Exc (list byte);
  (** [calculatePSNR]: it catches every error and then returns 0 *)
  calculatePSNR : list byte -> list byte -> JS.number
}.

(** The state of the store as the services read it. *)
Record Storage : Type := {
  getAllAuthenticatedImages : Exc (list AuthenticatedImage)
}.

(** ** SignatureEngine: [CryptographyService] *)

Definition getSigningAlgorithm (signatureType : string) : Exc string :=
  if String.eqb signatureType "RSA-2048" || String.eqb signatureType "RSA-4096"
  then Return "sha256"
  else if String.eqb signatureType "ECDSA-256"
  then Return "sha256"
  else Throw (JS.ErrorObj ("Unknown signature type: " +:+ signatureType)).

(** The body of the [try] block of [verify]. *)
Definition verify_body (rt : Runtime) (data signature publicKey signatureType : string) : Exc bool :=
  algorithm ← getSigningAlgorithm signatureType;
  crypto_verify rt algorithm data publicKey signature.

Definition verify (rt : Runtime) (data signature publicKey signatureType : string) : Exc bool :=
  try_catch (verify_body rt data signature publicKey signatureType)
            (fun _ => Return false).

(** ** VerificationMatcher: [SteganographyService.verifyImage] *)

Definition computeImageHash (rt : Runtime) (pixelData : list byte) (embedPositions : list Z) : string :=
  sha256_hex rt (clearLSBs pixelData embedPositions).

Record Attempt : Type := {
  success : bool;
  at_imageId : Z;
  at_signature : string;
  at_publicKey : string;
  at_signatureType : string;
  at_embedPositions : list Z;
  at_integrityScore : JS.number;
  at_metadata : ImageMetadata
}.

Record VerificationResult : Type := {
  isValid : bool;
  imageId : option Z;
  extractedSignature : option string;
  integrityScore : JS.number;
  method : string;
  errorMessage : option string;
  imageMetadata : option ImageMetadata
}.

(** The body of the inner [try] block of [attemptSignatureExtraction] for
    one image: [None] is [continue], [Some] is the attempt pushed. *)
Definition extraction_body (pixelData : list byte) (image : AuthenticatedImage) : Exc (option Attempt) :=
  match embedPositions image with
  | JNull => Return None
  | JNotIterable =>
      Throw (JS.ErrorObj "positions is not iterable")
  | JArray positions =>
      let extractedBits := extractLSB pixelData positions in
      let extractedSignature := bitsToSignature extractedBits in
      let integrityScore := calculateIntegrityScore extractedBits in
      Return (Some {|
        success := true;
        at_imageId := id image;
        at_signature := extractedSignature;
        at_publicKey := publicKey image;
        at_signatureType := signatureType image;
        at_embedPositions := positions;
        at_integrityScore := integrityScore;
        at_metadata := {|
          md_artistName := artistName image;
          md_artworkTitle := artworkTitle image;
          md_creationDate := creationDate image |} |})
  end.

(** One iteration of [for (const image of images)]: the inner [catch]
    continues with the next image. *)
Definition extraction_step (pixelData : list byte) (attempts : list Attempt) (image : AuthenticatedImage) : list Attempt :=
  match extraction_body pixelData image with
  | Return (Some attempt) => attempts ++ [attempt]
  | Return None => attempts
  | Throw _ => attempts
  end.

(** The parameter [info] of the method is not used by its body. *)
Definition attemptSignatureExtraction (st : Storage) (pixelData : list byte) : list Attempt :=
  match getAllAuthenticatedImages st with
  | Return images => fold_left (extraction_step pixelData) images []
  | Throw _ => []
  end.

Definition no_signature_result : VerificationResult := {|
  isValid := false;
  imageId := None;
  extractedSignature := None;
  integrityScore := JS.Num 0;
  method := "LSB_extraction";
  errorMessage := Some "No valid signature found or signature verification failed";
  imageMetadata := None |}.

Definition failure_result (e : JS.thrown) : VerificationResult := {|
  isValid := false;
  imageId := None;
  extractedSignature := None;
  integrityScore := JS.Num 0;
  method := "LSB_extraction";
  errorMessage := Some ("Verification failed: " +:+ JS.message_of e);
  imageMetadata := None |}.

Definition valid_result (attempt : Attempt) : VerificationResult := {|
  isValid := true;
  imageId := Some (at_imageId attempt);
  extractedSignature := Some (at_signature attempt);
  integrityScore := at_integrityScore attempt;
  method := "LSB_extraction";
  errorMessage := None;
  imageMetadata := Some (at_metadata attempt) |}.

(** The loop [for (const attempt of extractionAttempts)] and the [return]
    after it. *)
Fixpoint verify_loop (rt : Runtime) (pixelData : list byte) (extractionAttempts : list Attempt) : Exc VerificationResult :=
  match extractionAttempts with
  | [] => Return no_signature_result
  | attempt :: rest =>
      if success attempt then
        let imageHash := computeImageHash rt pixelData (at_embedPositions attempt) in
        isValid ← verify rt imageHash (at_signature attempt)
                         (at_publicKey attempt) (at_signatureType attempt);
        if (isValid : bool) then Return (valid_result attempt)
        else verify_loop rt pixelData rest
      else verify_loop rt pixelData rest
  end.

Definition verifyImage (rt : Runtime) (st : Storage) (imageBuffer : list byte) : Exc VerificationResult :=
  try_catch
    (raw ← sharp_raw rt imageBuffer;
     let extractionAttempts := attemptSignatureExtraction st (data raw) in
     verify_loop rt (data raw) extractionAttempts)
    (fun error => Return (failure_result error)).

(** ** AttackSimulator: [AttackSimulationService] *)

Record AttackResult : Type := {
  attackType : string;
  parameters : list (string * Q);
  beforeImageData : string;
  afterImageData : string;
  verificationPassed : bool;
  integrityLoss : JS.number;
  psnr : JS.number;
  extractionSuccessful : bool
}.

(** The [switch] of [simulateAttack]: the parameters and the attacked
    buffer. *)
Definition apply_attack (rt : Runtime) (originalBuffer : list byte) (attackType : string) : Exc (list (string * Q) * list byte) :=
  if String.eqb attackType "jpeg_compression" then
    attackedBuffer ← applyJPEGCompression rt originalBuffer 70%Q;
    Return ([("quality", 70%Q)], attackedBuffer)
  else if String.eqb attackType "gaussian_noise" then
    attackedBuffer ← applyGaussianNoise rt originalBuffer (1 # 10)%Q;
    Return ([("sigma", (1 # 10)%Q)], attackedBuffer)
  else if String.eqb attackType "cropping" then
    attackedBuffer ← applyCropping rt originalBuffer 10%Q;
    Return ([("cropPercentage", 10%Q)], attackedBuffer)
  else if String.eqb attackType "rotation" then
    attackedBuffer ← applyRotation rt originalBuffer 5%Q;
    Return ([("angle", 5%Q)], attackedBuffer)
  else if String.eqb attackType "scaling" then
    attackedBuffer ← applyScaling rt originalBuffer (8 # 10)%Q;
    Return ([("scaleFactor", (8 # 10)%Q)], attackedBuffer)
  else Throw (JS.ErrorObj ("Unknown attack type: " +:+ attackType)).

Definition simulateAttack (rt : Runtime) (st : Storage) (originalBuffer : list byte) (attackType : string) (image : AuthenticatedImage) : Exc AttackResult :=
  attacked ← apply_attack rt originalBuffer attackType;
  let beforeImageData := base64_encode rt originalBuffer in
  let afterImageData := base64_encode rt attacked.2 in
  verificationResult ← verifyImage rt st attacked.2;
  let psnr := calculatePSNR rt originalBuffer attacked.2 in
  Return {|
    attackType := attackType;
    parameters := attacked.1;
    beforeImageData := beforeImageData;
    afterImageData := afterImageData;
    verificationPassed := isValid verificationResult;
    integrityLoss := js_minus_from_100 (integrityScore verificationResult);
    psnr := psnr;
    extractionSuccessful := bool_decide (extractedSignature verificationResult ≠ None) |}.




(** ** Vocabulary of the properties *)

(** A bit string: every character is ['0'] or ['1']. *)
Fixpoint bitstring (s : string) : bool :=
  match s with
  | EmptyString => true
  | String c s' => is_bit_char c && bitstring s'
  end.

(** A lower-case hexadecimal string, the form in which
    [sign.sign(privateKey, 'hex')] gives a signature. *)
Definition lower_hex (c : ascii) : bool :=
  let n := Z.of_nat (nat_of_ascii c) in
  ((48 <=? n) && (n <=? 57)) || ((97 <=? n) && (n <=? 102)).

Fixpoint lower_hex_string (s : string) : bool :=
  match s with
  | EmptyString => true
  | String c s' => lower_hex c && lower_hex_string s'
  end.

(** What [computeImageHash] stores: [b & 0xFE]. *)
Definition clear_bit (b : byte) : byte :=
  JS.to_uint8 (Z.land (JS.byte_val b) 254).

(** What [embedLSB] stores: [(b & 0xFE) | parseInt(c)]. *)
Definition set_bit (c : ascii) (b : byte) : byte :=
  JS.to_uint8 (Z.lor (Z.land (JS.byte_val b) 254) (JS.to_int32 (JS.parseInt_char c))).

(** The seven upper bits of a byte. *)
Definition upper_bits (b : byte) : Z := Z.shiftr (JS.byte_val b) 1.

(** The least significant bit of a byte, as a character. *)
Definition lsb_char (b : byte) : ascii :=
  if Z.odd (JS.byte_val b) then "1"%char else "0"%char.

(** What one position contributes to the string that [extractLSB]
    builds. *)
Definition extracted_at (buf : list byte) (pos : Z) : string :=
  extract_step buf EmptyString pos.

(** A sequence of positions in which each one is greater than those
    before it. *)
Definition strictly_increasing (l : list Z) : Prop :=
  forall (i j : nat) (x y : Z),
    (i < j)%nat -> l !! i = Some x -> l !! j = Some y -> x < y.

(** A position inside a buffer. *)
Definition in_buffer (buf : list byte) (pos : Z) : Prop :=
  0 <= pos < buffer_length buf.

(** A stored record verifies against the pixel data of a candidate image:
    its positions are an array, and the signature extracted at them is
    accepted by [verify] for the content hash and the record's key. *)
Definition record_verifies (rt : Runtime) (pixelData : list byte) (image : AuthenticatedImage) : Prop :=
  exists positions : list Z,
    embedPositions image = JArray positions
    /\ verify rt (computeImageHash rt pixelData positions)
         (bitsToSignature (extractLSB pixelData positions))
         (publicKey image) (signatureType image)
       = Return true.

(** Processing a stored record raises an exception: in the extraction, or
    inside the [try] block of [verify]. *)
Definition processing_raises (rt : Runtime) (pixelData : list byte) (image : AuthenticatedImage) : Prop :=
  (exists e, extraction_body pixelData image = Throw e)
  \/ (exists (positions : list Z) (e : JS.thrown),
        embedPositions image = JArray positions
        /\ verify_body rt (computeImageHash rt pixelData positions)
             (bitsToSignature (extractLSB pixelData positions))
             (publicKey image) (signatureType image)
           = Throw e).

(** The attempts that the loop of [attemptSignatureExtraction] pushes for a
    list of images. *)
Definition attempts_of (pixelData : list byte) (images : list AuthenticatedImage) : list Attempt :=
  flat_map (fun image =>
              match extraction_body pixelData image with
              | Return (Some attempt) => [attempt]
              | _ => []
              end) images.

(** An attempt that the loop of [verifyImage] passes over: [verify]
    answers [false] for it. *)
Definition rejected (rt : Runtime) (pixelData : list byte) (attempt : Attempt) : Prop :=
  verify rt (computeImageHash rt pixelData (at_embedPositions attempt))
    (at_signature attempt) (at_publicKey attempt) (at_signatureType attempt)
  = Return false.


(** A store that returns the given images. *)
Definition store_of (images : list AuthenticatedImage) : Storage :=
  {| getAllAuthenticatedImages := Return images |}.

(** ** A small runtime and store for examples *)

Module Demo.

(** Pixel data are the bytes of the file; the digest spells the bytes out;
    a signature is accepted when it is the public key and is not empty; the
    key ["malformed"] makes the primitive raise; cropping fails. *)
Definition rt : Runtime := {|
  sha256_hex := String.string_of_list_byte;
  sharp_raw := fun buf =>
    match buf with
    | [] => Throw (JS.ErrorObj "Input Buffer is empty")
    | _ => Return {| data := buf; width := buffer_length buf / 4; height := 1; channels := 4 |}
    end;
  crypto_verify := fun algorithm data publicKey signature =>
    if String.eqb publicKey "malformed"
    then Throw (JS.ErrorObj "DECODER routines::unsupported")
    else Return (String.eqb signature publicKey && negb (String.eqb signature EmptyString));
  base64_decode := String.list_byte_of_string;
  base64_encode := String.string_of_list_byte;
  applyJPEGCompression := fun buf _ => Return (clear_bit <$> buf);
  applyGaussianNoise := fun buf _ => Return buf;
  applyCropping := fun _ _ => Throw (JS.ErrorObj "extract_area: bad extract area");
  applyRotation := fun buf _ => Return buf;
  applyScaling := fun buf _ => Return buf;
  calculatePSNR := fun original modified =>
    if decide (original = modified) then JS.Num 100 else JS.Num 40
|}.

Definition record (n : Z) (key : string) (positions : json_positions) : AuthenticatedImage := {|
  id := n;
  artistName := "artist";
  artworkTitle := "title";
  creationDate := "2024-01-01";
  signatureType := "RSA-2048";
  publicKey := key;
  imageData := "abab";
  embedPositions := positions
|}.

Definition corrupt : AuthenticatedImage := record 1 "5" JNotIterable.
Definition other : AuthenticatedImage := record 2 "5" (JArray [0; 1; 2; 3]).
Definition signed : AuthenticatedImage := record 3 "a" (JArray [0; 1; 2; 3]).

Definition images : list AuthenticatedImage := [corrupt; other; signed].

(** The least significant bits of [stego] spell [1010], the signature
    ["a"]; those of [unrelated] spell [1111]. *)
Definition stego : list byte := [x01; x00; x01; x00].
Definition unrelated : list byte := [x01; x01; x01; x01].

End Demo.

(** ** Signing, key generation and [authenticateImage] *)

Record KeyPair : Type := {
  kp_publicKey : string;
  kp_privateKey : string
}.

(** The signing side of Node's crypto and the encoder of sharp. *)
Record SigningRuntime : Type := {
  (** [generateKeyPairSync('rsa', { modulusLength: keySize, ... })] *)
  generate_rsa : Z -> Exc KeyPair;
  (** [generateKeyPairSync('ec', { namedCurve, ... })] *)
  generate_ec : string -> Exc KeyPair;
  (** [createSign(algorithm)], [update(data)], [end()] and
      [sign(privateKey, 'hex')] *)
  crypto_sign : string -> string -> string -> Exc string;
  (** [sharp(pixels, { raw: { width, height, channels } }).png().toBuffer()] *)
  sharp_png : list byte -> Z -> Z -> Z -> Exc (list byte);
  (** [createHash('sha256').update(text).digest('hex')] *)
  sha256_hex_text : string -> string
}.

Definition generateRSAKeyPair (srt : SigningRuntime) (keySize : Z) : Exc KeyPair :=
  generate_rsa srt keySize.

Definition generateECDSAKeyPair (srt : SigningRuntime) : Exc KeyPair :=
  generate_ec srt "secp256k1".

Definition generateKeyPair (srt : SigningRuntime) (signatureType : string) : Exc KeyPair :=
  try_catch
    (if String.eqb signatureType "RSA-2048" then generateRSAKeyPair srt 2048
     else if String.eqb signatureType "RSA-4096" then generateRSAKeyPair srt 4096
     else if String.eqb signatureType "ECDSA-256" then generateECDSAKeyPair srt
     else Throw (JS.ErrorObj ("Unsupported signature type: " +:+ signatureType)))
    (fun error =>
       Throw (JS.ErrorObj ("Key generation failed: " +:+ JS.message_of error))).

Definition sign (srt : SigningRuntime) (data privateKey signatureType : string) : Exc string :=
  try_catch
    (algorithm ← getSigningAlgorithm signatureType;
     crypto_sign srt algorithm data privateKey)
    (fun error =>
       Throw (JS.ErrorObj ("Signing failed: " +:+ JS.message_of error))).

Record EmbedResult : Type := {
  stegoImageData : string;
  signatureHash : string;
  er_embedPositions : list Z
}.

(** [authenticateImage]; of [metadata] the method reads [signatureType]. *)
Definition authenticateImage (rt : Runtime) (srt : SigningRuntime) (imageBuffer : list byte) (metadata_signatureType : string) (keyPair : KeyPair) : Exc EmbedResult :=
  try_catch
    (raw ← sharp_raw rt imageBuffer;
     let pixelData := data raw in
     let embedPositions :=
       generateEmbedPositions (width raw * height raw * channels raw) in
     let imageHash := computeImageHash rt pixelData embedPositions in
     signature ← sign srt imageHash (kp_privateKey keyPair) metadata_signatureType;
     let signatureBits := signatureToBits signature in
     let stegoPixelData := embedLSB pixelData signatureBits embedPositions in
     stegoImageBuffer ← sharp_png srt stegoPixelData
                          (width raw) (height raw) (channels raw);
     let stegoImageData := base64_encode rt stegoImageBuffer in
     let signatureHash := sha256_hex_text srt signature in
     Return {| stegoImageData := stegoImageData;
               signatureHash := signatureHash;
               er_embedPositions := embedPositions |})
    (fun error =>
       Throw (JS.ErrorObj
                ("Steganographic embedding failed: " +:+ JS.message_of error))).

(** ** The route [POST /api/verify] *)

(** The row that the route writes with [storage.createVerificationLog]. *)
Record VerificationLogEntry : Type := {
  log_imageId : Z;
  log_verificationResult : bool;
  log_extractedSignature : option string;
  log_integrityScore : JS.number;
  log_verificationMethod : string;
  log_errorMessage : option string
}.

Inductive Response : Type :=
| Json (result : VerificationResult) : Response
| Status (code : Z) (message : string) : Response.

(** The table of verification logs: an insertion appends a row, unless the
    database fails. *)
Record LogTable : Type := {
  insert_fails : VerificationLogEntry -> option JS.thrown;
  rows : list VerificationLogEntry
}.

Definition createVerificationLog (table : LogTable) (log : VerificationLogEntry) : Exc LogTable :=
  match insert_fails table log with
  | Some e => Throw e
  | None => Return {| insert_fails := insert_fails table; rows := rows table ++ [log] |}
  end.

(** [if (result.imageId)]: an id that is present and is not 0. *)
Definition truthy_id (imageId : option Z) : option Z :=
  match imageId with
  | Some n => if n =? 0 then None else Some n
  | None => None
  end.

(** The handler: the response sent and the table afterwards.  [file] is
    [req.file], absent when no image was uploaded. *)
Definition verify_route (rt : Runtime) (st : Storage) (table : LogTable) (file : option (list byte)) : Response * LogTable :=
  match file with
  | None => (Status 400 "No image file provided", table)
  | Some buffer =>
      match verifyImage rt st buffer with
      | Throw _ => (Status 500 "Failed to verify image", table)
      | Return result =>
          match truthy_id (imageId result) with
          | Some n =>
              match createVerificationLog table
                      {| log_imageId := n;
                         log_verificationResult := isValid result;
                         log_extractedSignature := extractedSignature result;
                         log_integrityScore := integrityScore result;
                         log_verificationMethod := method result;
                         log_errorMessage := errorMessage result |} with
              | Return table' => (Json result, table')
              | Throw _ => (Status 500 "Failed to verify image", table)
              end
          | None => (Json result, table)
          end
      end
  end.

(** ** Vocabulary of the further properties *)

(** The schemes that the services support. *)
Definition supported_scheme (signatureType : string) : Prop :=
  signatureType = "RSA-2048" \/ signatureType = "RSA-4096"
  \/ signatureType = "ECDSA-256".

(** Some position passes the guard [pos < pixelData.length] of
    [extractLSB]. *)
Definition some_position_read (buf : list byte) (positions : list Z) : bool :=
  existsb (fun p => p <? buffer_length buf) positions.

(** A string of [n] copies of a character. *)
Fixpoint repeat_char (c : ascii) (n : nat) : string :=
  match n with
  | O => EmptyString
  | S n' => String c (repeat_char c n')
  end.

(** ** A signing runtime for examples *)

Module DemoSigning.

(** The signature of any data is the private key, which is also the public
    key, so that [Demo.rt] accepts it; the encoder keeps the pixels. *)
Definition srt : SigningRuntime := {|
  generate_rsa := fun keySize =>
    Return {| kp_publicKey := repeat_char "a" (Z.to_nat (keySize / 4));
              kp_privateKey := repeat_char "a" (Z.to_nat (keySize / 4)) |};
  generate_ec := fun _ => Throw (JS.ErrorObj "unsupported curve");
  crypto_sign := fun algorithm data privateKey => Return privateKey;
  sharp_png := fun pixels _ _ _ => Return pixels;
  sha256_hex_text := fun text => text
|}.

Definition keyPair : KeyPair := {|
  kp_publicKey := repeat_char "a" 512;
  kp_privateKey := repeat_char "a" 512
|}.

(** A 32 x 32 RGBA image: 4096 samples. *)
Definition picture : list byte := replicate 4096 x07.

Definition table : LogTable := {| insert_fails := fun _ => None; rows := [] |}.

(** What [authenticateImage] computes for [picture] and [keyPair]. *)
Definition stego_pixels : list byte :=
  embedLSB picture (signatureToBits (kp_privateKey keyPair))
    (generateEmbedPositions 4096).

Definition result : EmbedResult := {|
  stegoImageData := base64_encode Demo.rt stego_pixels;
  signatureHash := kp_privateKey keyPair;
  er_embedPositions := generateEmbedPositions 4096
|}.

(** The decoded picture and the decoded stego file. *)
Definition raw : RawImage :=
  {| data := picture; width := 1024; height := 1; channels := 4 |}.

Definition stego_raw : RawImage :=
  {| data := stego_pixels; width := 1024; height := 1; channels := 4 |}.

Definition record : AuthenticatedImage := {|
  id := 7;
  artistName := "artist";
  artworkTitle := "title";
  creationDate := "2024-01-01";
  signatureType := "RSA-2048";
  publicKey := kp_publicKey keyPair;
  imageData := stegoImageData result;
  embedPositions := JArray (er_embedPositions result)
|}.

End DemoSigning.

(** * Properties *)

(** ** Strings *)

Lemma append_cons (c : ascii) (s t : string) : String c s +:+ t = String c (s +:+ t).
Proof. reflexivity. Qed.

Lemma append_empty_l (s : string) : EmptyString +:+ s = s.
Proof. reflexivity. Qed.

Lemma append_empty_r (s : string) : s +:+ EmptyString = s.
Proof.
  induction s as [|c s IH]; [reflexivity |].
  by rewrite append_cons, IH.
Qed.

Lemma append_assoc (s1 s2 s3 : string) : (s1 +:+ s2) +:+ s3 = s1 +:+ (s2 +:+ s3).
Proof.
  induction s1 as [|c s1 IH]; [reflexivity |].
  by rewrite !append_cons, IH.
Qed.

Lemma length_append (s1 s2 : string) :
  String.length (s1 +:+ s2) = (String.length s1 + String.length s2)%nat.
Proof.
  induction s1 as [|c s1 IH]; [reflexivity |].
  rewrite append_cons. simpl. by rewrite IH.
Qed.

Lemma substring_0_0 (s : string) : String.substring 0 0 s = EmptyString.
Proof. by destruct s. Qed.

Lemma is_bit_char_cases (c : ascii) :
  is_bit_char c = true -> c = "0"%char \/ c = "1"%char.
Proof.
  unfold is_bit_char. intros H. apply orb_true_iff in H.
  destruct H as [H | H]; apply Ascii.eqb_eq in H; auto.
Qed.

Lemma bitstring_append (s1 s2 : string) :
  bitstring (s1 +:+ s2) = bitstring s1 && bitstring s2.
Proof.
  induction s1 as [|c s1 IH]; [reflexivity |].
  rewrite append_cons. simpl. by rewrite IH, andb_assoc.
Qed.

(** ** Signatures and bit strings *)

Lemma nibble_roundtrip (c : ascii) :
  lower_hex c = true ->
  bitstring (nibble_bits (hex_value c)) = true
  /\ forall rest : string,
       bitsToSignature (nibble_bits (hex_value c) +:+ rest)
       = String c (bitsToSignature rest).
Proof.
  destruct c as [[] [] [] [] [] [] [] []]; intros H; vm_compute in H;
    try discriminate H; (split; [reflexivity | intros rest; reflexivity]).
Qed.

(** The bits embedded for a hexadecimal signature are a bit string of four
    characters per digit, and [bitsToSignature] reads the signature back. *)
Lemma signatureToBits_bitstring (signature : string) :
  lower_hex_string signature = true ->
  bitstring (signatureToBits signature) = true
  /\ String.length (signatureToBits signature) = (4 * String.length signature)%nat
  /\ bitsToSignature (signatureToBits signature) = signature.
Proof.
  induction signature as [|c signature IH]; [by repeat split |].
  simpl. intros H. apply andb_true_iff in H as [Hc H].
  destruct (IH H) as (IH1 & IH2 & IH3).
  destruct (nibble_roundtrip c Hc) as [Hb Hr].
  split; [| split].
  - by rewrite bitstring_append, Hb, IH1.
  - rewrite length_append, IH2.
    destruct (hex_value c); simpl; lia.
  - by rewrite Hr, IH3.
Qed.

(** ** Bytes *)

Section Bytes.

Ltac all_bytes b := destruct b; vm_compute; reflexivity.

Lemma byte_val_range (b : byte) : 0 <= JS.byte_val b < 256.
Proof.
  unfold JS.byte_val. pose proof (Byte.to_N_bounded b). lia.
Qed.

Lemma upper_bits_half (b : byte) : upper_bits b = JS.byte_val b / 2.
Proof. unfold upper_bits. by rewrite Z.shiftr_div_pow2. Qed.

Lemma clear_bit_upper (b : byte) : clear_bit b = JS.to_uint8 (2 * upper_bits b).
Proof. all_bytes b. Qed.

Lemma upper_bits_clear_bit (b : byte) : upper_bits (clear_bit b) = upper_bits b.
Proof. all_bytes b. Qed.

Lemma upper_bits_set_bit_0 (b : byte) : upper_bits (set_bit "0" b) = upper_bits b.
Proof. all_bytes b. Qed.

Lemma upper_bits_set_bit_1 (b : byte) : upper_bits (set_bit "1" b) = upper_bits b.
Proof. all_bytes b. Qed.

Lemma upper_bits_set_bit (c : ascii) (b : byte) :
  is_bit_char c = true -> upper_bits (set_bit c b) = upper_bits b.
Proof.
  intros H. destruct (is_bit_char_cases c H) as [-> | ->];
    [apply upper_bits_set_bit_0 | apply upper_bits_set_bit_1].
Qed.

Lemma lsb_toString (b : byte) :
  JS.toString (Z.land (JS.byte_val b) 1) = String (lsb_char b) EmptyString.
Proof. all_bytes b. Qed.

Lemma lsb_char_set_bit_0 (b : byte) : lsb_char (set_bit "0" b) = "0"%char.
Proof. all_bytes b. Qed.

Lemma lsb_char_set_bit_1 (b : byte) : lsb_char (set_bit "1" b) = "1"%char.
Proof. all_bytes b. Qed.

Lemma lsb_char_set_bit (c : ascii) (b : byte) :
  is_bit_char c = true -> lsb_char (set_bit c b) = c.
Proof.
  intros H. destruct (is_bit_char_cases c H) as [-> | ->];
    [apply lsb_char_set_bit_0 | apply lsb_char_set_bit_1].
Qed.

Lemma lsb_char_is_bit (b : byte) : is_bit_char (lsb_char b) = true.
Proof. unfold lsb_char. by destruct (Z.odd _). Qed.

Lemma upper_bits_close (b b' : byte) :
  upper_bits b' = upper_bits b -> Z.abs (JS.byte_val b' - JS.byte_val b) <= 1.
Proof.
  rewrite !upper_bits_half. intros H.
  pose proof (Z.div_mod (JS.byte_val b) 2 ltac:(lia)).
  pose proof (Z.div_mod (JS.byte_val b') 2 ltac:(lia)).
  pose proof (Z.mod_pos_bound (JS.byte_val b) 2 ltac:(lia)).
  pose proof (Z.mod_pos_bound (JS.byte_val b') 2 ltac:(lia)).
  lia.
Qed.

Lemma upper_bits_clear_eq (b b' : byte) :
  upper_bits b' = upper_bits b -> clear_bit b' = clear_bit b.
Proof. intros H. by rewrite !clear_bit_upper, H. Qed.

End Bytes.

(** ** Buffers: one step of each loop as an update in place *)

Section Steps.

Implicit Types (buf : list byte) (pos : Z) (j : nat) (c : ascii).

Lemma alter_outside (f : byte -> byte) buf (i : nat) :
  (length buf <= i)%nat -> alter f i buf = buf.
Proof.
  intros H. apply list_eq; intros j.
  destruct (decide (i = j)) as [<- | Hne].
  - rewrite list_lookup_alter_eq. by rewrite (lookup_ge_None_2 buf i H).
  - by rewrite list_lookup_alter_ne.
Qed.

(** A guarded read-modify-write of the codec is [alter] at the position
    when the position is a valid index, and nothing otherwise. *)
Lemma guarded_update (f : byte -> byte) (g : Z -> Z) buf pos :
  (forall b, JS.to_uint8 (g (JS.byte_val b)) = f b) ->
  (if pos <? buffer_length buf
   then JS.set buf pos (g (JS.elem_to_int32 (JS.get buf pos)))
   else buf)
  = if 0 <=? pos then alter f (Z.to_nat pos) buf else buf.
Proof.
  intros Hf. unfold JS.set, JS.get.
  destruct (Z.ltb_spec pos (buffer_length buf)) as [Hlt | Hge];
    destruct (Z.leb_spec 0 pos) as [Hpos | Hneg]; simpl; try reflexivity.
  - destruct (lookup_lt_is_Some_2 buf (Z.to_nat pos)) as [b Hb]; [lia |].
    rewrite Hb. simpl. rewrite Hf. apply list_eq; intros j.
    destruct (decide (Z.to_nat pos = j)) as [<- | Hne].
    + rewrite list_lookup_insert_eq by lia.
      by rewrite list_lookup_alter_eq, Hb.
    + by rewrite list_lookup_insert_ne, list_lookup_alter_ne.
  - symmetry. apply alter_outside. lia.
Qed.

Lemma embed_step_alter buf c pos :
  embed_step buf c pos
  = if 0 <=? pos then alter (set_bit c) (Z.to_nat pos) buf else buf.
Proof.
  unfold embed_step.
  apply (guarded_update (set_bit c)
           (fun v => Z.lor (Z.land v 254) (JS.to_int32 (JS.parseInt_char c)))).
  reflexivity.
Qed.

Lemma clear_step_alter buf pos :
  clear_step buf pos
  = if 0 <=? pos then alter clear_bit (Z.to_nat pos) buf else buf.
Proof.
  unfold clear_step.
  apply (guarded_update clear_bit (fun v => Z.land v 254)). reflexivity.
Qed.

Lemma embed_step_lookup buf c pos j :
  embed_step buf c pos !! j
  = if decide (pos = Z.of_nat j) then set_bit c <$> buf !! j else buf !! j.
Proof.
  rewrite embed_step_alter.
  destruct (Z.leb_spec 0 pos) as [Hpos | Hneg]; case_decide as Heq; subst.
  - by rewrite Nat2Z.id, list_lookup_alter_eq.
  - rewrite list_lookup_alter_ne; [reflexivity | lia].
  - lia.
  - reflexivity.
Qed.

Lemma clear_step_lookup buf pos j :
  clear_step buf pos !! j
  = if decide (pos = Z.of_nat j) then clear_bit <$> buf !! j else buf !! j.
Proof.
  rewrite clear_step_alter.
  destruct (Z.leb_spec 0 pos) as [Hpos | Hneg]; case_decide as Heq; subst.
  - by rewrite Nat2Z.id, list_lookup_alter_eq.
  - rewrite list_lookup_alter_ne; [reflexivity | lia].
  - lia.
  - reflexivity.
Qed.

Lemma embed_step_length buf c pos : length (embed_step buf c pos) = length buf.
Proof.
  rewrite embed_step_alter. destruct (0 <=? pos); [apply length_alter | reflexivity].
Qed.

Lemma embed_step_outside buf c pos : ¬ in_buffer buf pos -> embed_step buf c pos = buf.
Proof.
  unfold in_buffer. intros H. rewrite embed_step_alter.
  destruct (Z.leb_spec 0 pos); [| reflexivity].
  apply alter_outside. lia.
Qed.

End Steps.

(** ** [embedLSB] *)

Section Embed.

Implicit Types (buf : list byte) (bits : string) (ps : list Z) (j : nat).

Lemma embed_loop_length buf bits ps :
  length (embed_loop buf bits ps) = length buf.
Proof.
  revert buf ps. induction bits as [|c bits IH]; intros buf [|p ps]; simpl; try reflexivity.
  by rewrite IH, embed_step_length.
Qed.

(** A byte whose index is not among the positions is not written. *)
Lemma embed_loop_other buf bits ps j :
  Z.of_nat j ∉ ps -> embed_loop buf bits ps !! j = buf !! j.
Proof.
  revert buf ps. induction bits as [|c bits IH]; intros buf [|p ps] Hj; simpl; try reflexivity.
  apply not_elem_of_cons in Hj as [Hne Hj].
  rewrite IH by assumption. rewrite embed_step_lookup.
  case_decide; [congruence | reflexivity].
Qed.

(** Every byte keeps its seven upper bits. *)
Lemma embed_loop_upper buf bits ps j :
  bitstring bits = true ->
  upper_bits <$> embed_loop buf bits ps !! j = upper_bits <$> buf !! j.
Proof.
  revert buf ps. induction bits as [|c bits IH]; intros buf [|p ps] Hb; simpl; try reflexivity.
  simpl in Hb. apply andb_true_iff in Hb as [Hc Hb].
  rewrite IH by assumption. rewrite embed_step_lookup.
  case_decide; [| reflexivity].
  destruct (buf !! j) as [b|]; simpl; [| reflexivity].
  by rewrite upper_bits_set_bit.
Qed.

Lemma embed_loop_all_outside buf bits ps :
  Forall (fun p => ¬ in_buffer buf p) ps -> embed_loop buf bits ps = buf.
Proof.
  revert buf ps. induction bits as [|c bits IH]; intros buf [|p ps] H; simpl; try reflexivity.
  apply Forall_cons in H as [Hp H].
  rewrite embed_step_outside by assumption. by apply IH.
Qed.

End Embed.

(** C10. [embedLSB] with a bit string returns a buffer of the length of its
    input; every byte keeps its seven upper bits, so no sample value moves
    by more than 1; a position outside the buffer is skipped: nothing is
    written for it and the buffer does not grow. *)
Theorem embedLSB_only_alters_lsb (buf : list byte) (bits : string) (positions : list Z) :
  bitstring bits = true ->
  length (embedLSB buf bits positions) = length buf
  /\ (forall (j : nat) (b : byte), buf !! j = Some b ->
        exists b', embedLSB buf bits positions !! j = Some b'
                   /\ upper_bits b' = upper_bits b
                   /\ Z.abs (JS.byte_val b' - JS.byte_val b) <= 1)
  /\ (forall (c : ascii) (pos : Z), ¬ in_buffer buf pos -> embed_step buf c pos = buf)
  /\ (Forall (fun p => ¬ in_buffer buf p) positions -> embedLSB buf bits positions = buf).
Proof.
  intros Hbits. unfold embedLSB. repeat split.
  - apply embed_loop_length.
  - intros j b Hj.
    pose proof (embed_loop_upper buf bits positions j Hbits) as Hu.
    rewrite Hj in Hu. simpl in Hu.
    destruct (embed_loop buf bits positions !! j) as [b'|] eqn:Hb'; [| discriminate].
    simpl in Hu. injection Hu as Hu. exists b'. repeat split; [assumption |].
    by apply upper_bits_close.
  - intros c pos. apply embed_step_outside.
  - apply embed_loop_all_outside.
Qed.

Lemma embedLSB_only_alters_lsb_witness :
  bitstring "10" = true
  /\ length (embedLSB [x07; x08] "10" [0; 5]) = length [x07; x08].
Proof.
  split; [reflexivity |].
  exact (proj1 (embedLSB_only_alters_lsb [x07; x08] "10" [0; 5] eq_refl)).
Defined.

(** ** [computeImageHash] *)

Section Clear.

Implicit Types (buf : list byte) (ps : list Z) (j : nat).

Lemma clearLSBs_lookup_out buf ps j :
  Z.of_nat j ∉ ps -> clearLSBs buf ps !! j = buf !! j.
Proof.
  unfold clearLSBs. revert buf. induction ps as [|p ps IH]; intros buf Hj; simpl; [reflexivity |].
  apply not_elem_of_cons in Hj as [Hne Hj].
  rewrite IH by assumption. rewrite clear_step_lookup.
  case_decide; [congruence | reflexivity].
Qed.

Lemma clear_bit_idem (b : byte) : clear_bit (clear_bit b) = clear_bit b.
Proof. apply upper_bits_clear_eq, upper_bits_clear_bit. Qed.

Lemma clearLSBs_lookup_in buf ps j :
  Z.of_nat j ∈ ps -> clearLSBs buf ps !! j = clear_bit <$> buf !! j.
Proof.
  unfold clearLSBs. revert buf. induction ps as [|p ps IH]; intros buf Hj; simpl.
  - by apply elem_of_nil in Hj.
  - destruct (decide (Z.of_nat j ∈ ps)) as [Hin | Hout].
    + rewrite IH by assumption. rewrite clear_step_lookup.
      case_decide; [| reflexivity].
      destruct (buf !! j) as [b|]; simpl; [| reflexivity].
      by rewrite clear_bit_idem.
    + apply elem_of_cons in Hj as [Heq | Hin]; [| contradiction].
      pose proof (clearLSBs_lookup_out (clear_step buf p) ps j Hout) as Ho.
      unfold clearLSBs in Ho. rewrite Ho, clear_step_lookup.
      case_decide; [reflexivity | congruence].
Qed.

(** Clearing the embed positions forgets what was embedded at them. *)
Lemma clearLSBs_embedLSB buf (bits : string) ps :
  bitstring bits = true ->
  clearLSBs (embedLSB buf bits ps) ps = clearLSBs buf ps.
Proof.
  intros Hbits. apply list_eq; intros j. unfold embedLSB.
  destruct (decide (Z.of_nat j ∈ ps)) as [Hin | Hout].
  - rewrite !clearLSBs_lookup_in by assumption.
    pose proof (embed_loop_upper buf bits ps j Hbits) as Hu.
    destruct (embed_loop buf bits ps !! j) as [b'|], (buf !! j) as [b|];
      simpl in *; try discriminate; [| reflexivity].
    injection Hu as Hu. f_equal. by apply upper_bits_clear_eq.
  - rewrite !clearLSBs_lookup_out by assumption.
    by apply embed_loop_other.
Qed.

End Clear.

(** C2. The content hash does not depend on what was embedded: hashing
    after [embedLSB] with a bit string, over the same positions, gives the
    hash of the input buffer. *)
Theorem computeImageHash_embedLSB (rt : Runtime) (buf : list byte) (bits : string) (positions : list Z) :
  bitstring bits = true ->
  computeImageHash rt (embedLSB buf bits positions) positions
  = computeImageHash rt buf positions.
Proof.
  intros Hbits. unfold computeImageHash. by rewrite clearLSBs_embedLSB.
Qed.

Lemma computeImageHash_embedLSB_witness :
  bitstring "0110" = true
  /\ computeImageHash Demo.rt (embedLSB [x10; x11; x12; x13] "0110" [3; 0; 9; 0]) [3; 0; 9; 0]
     = computeImageHash Demo.rt [x10; x11; x12; x13] [3; 0; 9; 0].
Proof.
  split; [reflexivity |].
  exact (computeImageHash_embedLSB Demo.rt [x10; x11; x12; x13] "0110"
           [3; 0; 9; 0] eq_refl).
Defined.

(** ** [extractLSB] *)

Section Extract.

Implicit Types (buf : list byte) (ps : list Z) (bits : string).

Lemma extract_step_append buf bits pos :
  extract_step buf bits pos = bits +:+ extracted_at buf pos.
Proof.
  unfold extracted_at, extract_step.
  destruct (pos <? buffer_length buf); [reflexivity | by rewrite append_empty_r].
Qed.

Lemma extract_loop_append buf ps bits :
  fold_left (extract_step buf) ps bits = bits +:+ extractLSB buf ps.
Proof.
  unfold extractLSB. revert bits.
  induction ps as [|p ps IH]; intros bits; simpl.
  - by rewrite append_empty_r.
  - rewrite IH. rewrite (IH (extract_step buf EmptyString p)).
    rewrite (extract_step_append buf bits p).
    by rewrite append_assoc.
Qed.

Lemma extractLSB_nil buf : extractLSB buf [] = EmptyString.
Proof. reflexivity. Qed.

Lemma extractLSB_cons buf pos ps :
  extractLSB buf (pos :: ps) = extracted_at buf pos +:+ extractLSB buf ps.
Proof.
  unfold extractLSB at 1. simpl. by rewrite extract_loop_append.
Qed.

Lemma extracted_at_inside buf pos (b : byte) :
  0 <= pos -> buf !! Z.to_nat pos = Some b ->
  extracted_at buf pos = String (lsb_char b) EmptyString.
Proof.
  intros Hpos Hb. unfold extracted_at, extract_step, JS.get.
  pose proof (lookup_lt_Some _ _ _ Hb) as Hlt.
  destruct (Z.ltb_spec pos (buffer_length buf)); [| lia].
  destruct (Z.leb_spec 0 pos); [| lia].
  rewrite Hb. simpl. by rewrite lsb_toString.
Qed.

Lemma extracted_at_beyond buf pos :
  buffer_length buf <= pos -> extracted_at buf pos = EmptyString.
Proof.
  intros H. unfold extracted_at, extract_step.
  destruct (Z.ltb_spec pos (buffer_length buf)); [lia | reflexivity].
Qed.

(** An index that is not an array index reads [undefined], and
    [undefined & 1] is 0. *)
Lemma extracted_at_negative buf pos :
  pos < 0 -> extracted_at buf pos = "0".
Proof.
  intros H. unfold extracted_at, extract_step, JS.get.
  destruct (Z.ltb_spec pos (buffer_length buf)); [| lia].
  destruct (Z.leb_spec 0 pos); [lia | reflexivity].
Qed.

Lemma extracted_at_length buf pos :
  String.length (extracted_at buf pos) = if pos <? buffer_length buf then 1%nat else 0%nat.
Proof.
  destruct (Z.ltb_spec pos (buffer_length buf)) as [Hlt | Hge].
  - destruct (Z.lt_ge_cases pos 0) as [Hneg | Hpos].
    + by rewrite extracted_at_negative.
    + destruct (lookup_lt_is_Some_2 buf (Z.to_nat pos)) as [b Hb]; [lia |].
      by rewrite (extracted_at_inside buf pos b).
  - by rewrite extracted_at_beyond.
Qed.

Lemma extracted_at_bitstring buf pos : bitstring (extracted_at buf pos) = true.
Proof.
  destruct (Z.ltb_spec pos (buffer_length buf)) as [Hlt | Hge].
  - destruct (Z.lt_ge_cases pos 0) as [Hneg | Hpos].
    + by rewrite extracted_at_negative.
    + destruct (lookup_lt_is_Some_2 buf (Z.to_nat pos)) as [b Hb]; [lia |].
      rewrite (extracted_at_inside buf pos b) by assumption.
      simpl. by rewrite lsb_char_is_bit.
  - by rewrite extracted_at_beyond.
Qed.

(** Extraction only produces the characters ['0'] and ['1']. *)
Lemma extractLSB_bitstring buf ps : bitstring (extractLSB buf ps) = true.
Proof.
  induction ps as [|p ps IH]; [reflexivity |].
  by rewrite extractLSB_cons, bitstring_append, extracted_at_bitstring, IH.
Qed.

(** The number of bits extracted is the number of positions that pass the
    guard [pos < pixelData.length]. *)
Lemma extractLSB_length buf ps :
  String.length (extractLSB buf ps)
  = length (List.filter (fun p => p <? buffer_length buf) ps).
Proof.
  induction ps as [|p ps IH]; [reflexivity |].
  rewrite extractLSB_cons, length_append, extracted_at_length, IH. simpl.
  by destruct (p <? buffer_length buf).
Qed.

Lemma extractLSB_inside buf ps :
  Forall (in_buffer buf) ps ->
  String.length (extractLSB buf ps) = length ps
  /\ forall (i : nat) (pos : Z) (b : byte),
       ps !! i = Some pos -> buf !! Z.to_nat pos = Some b ->
       String.get i (extractLSB buf ps) = Some (lsb_char b).
Proof.
  induction ps as [|p ps IH]; intros H.
  - split; [reflexivity |]. intros i pos b Hi. by rewrite lookup_nil in Hi.
  - apply Forall_cons in H as [[Hp0 Hp1] H]. destruct (IH H) as [IHlen IHget].
    destruct (lookup_lt_is_Some_2 buf (Z.to_nat p)) as [bp Hbp]; [lia |].
    rewrite extractLSB_cons, (extracted_at_inside buf p bp) by assumption.
    rewrite append_cons, append_empty_l. split.
    + simpl. by rewrite IHlen.
    + intros [|i] pos b Hi Hb; simpl in Hi.
      * injection Hi as ->. rewrite Hbp in Hb. by injection Hb as ->.
      * simpl. by apply (IHget i pos b).
Qed.

End Extract.

(** C5, as the code has it.  [extractLSB] is a total function that
    returns a bit string; it appends one character for each position that
    passes the guard [pos < pixelData.length], and none for the others.
    When every position lies inside the buffer the result has exactly one
    character per position, and the i-th is the least significant bit of
    [samples[positions[i]]]. *)
Theorem extractLSB_one_bit_per_position_inside (samples : list byte) (positions : list Z) :
  bitstring (extractLSB samples positions) = true
  /\ String.length (extractLSB samples positions)
     = length (List.filter (fun p => p <? buffer_length samples) positions)
  /\ (Forall (in_buffer samples) positions ->
      String.length (extractLSB samples positions) = length positions
      /\ forall (i : nat) (pos : Z) (b : byte),
           positions !! i = Some pos -> samples !! Z.to_nat pos = Some b ->
           String.get i (extractLSB samples positions) = Some (lsb_char b)).
Proof.
  split; [apply extractLSB_bitstring |].
  split; [apply extractLSB_length | apply extractLSB_inside].
Qed.

(** C5 as stated fails: a position beyond the end of the buffer yields no
    bit, so one position can give the empty string. *)
Lemma extractLSB_skips_position_beyond_end :
  String.length (extractLSB [x01] [5]) <> length [5].
Proof. vm_compute. discriminate. Qed.

Lemma extractLSB_one_bit_per_position_inside_witness :
  Forall (in_buffer [x01; x02]) [1; 0]
  /\ String.length (extractLSB [x01; x02] [1; 0]) = length [1; 0].
Proof.
  assert (H : Forall (in_buffer [x01; x02]) [1; 0]).
  { repeat constructor; unfold in_buffer; simpl; lia. }
  split; [exact H |].
  exact (proj1 (proj2 (proj2 (extractLSB_one_bit_per_position_inside
                                [x01; x02] [1; 0])) H)).
Defined.

(** ** Embedding then extracting *)

Section Roundtrip.

Implicit Types (buf : list byte) (ps : list Z) (bits : string).

Lemma in_buffer_embed_step buf (c : ascii) (pos p : Z) :
  in_buffer buf p -> in_buffer (embed_step buf c pos) p.
Proof. unfold in_buffer. by rewrite embed_step_length. Qed.

Lemma roundtrip_prefix ps : forall buf bits,
  bitstring bits = true -> NoDup ps -> Forall (in_buffer buf) ps ->
  String.substring 0 (Nat.min (String.length bits) (length ps))
    (extractLSB (embed_loop buf bits ps) ps)
  = String.substring 0 (Nat.min (String.length bits) (length ps)) bits.
Proof.
  induction ps as [|p ps IH]; intros buf bits Hbits Hnd Hin.
  - rewrite Nat.min_0_r. by rewrite !substring_0_0.
  - destruct bits as [|c bits]; [by rewrite !substring_0_0 |].
    simpl in Hbits. apply andb_true_iff in Hbits as [Hc Hbits].
    apply NoDup_cons in Hnd as [Hp Hnd].
    apply Forall_cons in Hin as [[Hp0 Hp1] Hin].
    simpl embed_loop.
    destruct (lookup_lt_is_Some_2 buf (Z.to_nat p)) as [b Hb]; [lia |].
    assert (Hread : embed_loop (embed_step buf c p) bits ps !! Z.to_nat p
                    = Some (set_bit c b)).
    { rewrite embed_loop_other by (rewrite Z2Nat.id; assumption).
      rewrite embed_step_lookup.
      case_decide as Hne; [| rewrite Z2Nat.id in Hne; lia].
      by rewrite Hb. }
    rewrite extractLSB_cons.
    rewrite (extracted_at_inside _ p (set_bit c b) Hp0 Hread).
    rewrite lsb_char_set_bit by assumption.
    rewrite append_cons, append_empty_l. simpl.
    f_equal. apply IH; [assumption | assumption |].
    eapply Forall_impl; [exact Hin |]. intros q. apply in_buffer_embed_step.
Qed.

End Roundtrip.

(** C1, as the code has it.  When the positions are pairwise distinct and
    all lie inside the buffer, extracting after embedding a bit string
    gives back its first [min(len(bits), len(positions))] bits; and, for
    any positions, a byte whose index is not listed is left as it was. *)
Theorem extractLSB_embedLSB_distinct_inside (buf : list byte) (bits : string) (positions : list Z) :
  bitstring bits = true ->
  NoDup positions ->
  Forall (in_buffer buf) positions ->
  String.substring 0 (Nat.min (String.length bits) (length positions))
    (extractLSB (embedLSB buf bits positions) positions)
  = String.substring 0 (Nat.min (String.length bits) (length positions)) bits
  /\ forall j : nat, Z.of_nat j ∉ positions ->
       embedLSB buf bits positions !! j = buf !! j.
Proof.
  intros Hbits Hnd Hin. split.
  - by apply roundtrip_prefix.
  - intros j. apply embed_loop_other.
Qed.

Lemma extractLSB_embedLSB_distinct_inside_witness :
  bitstring "101" = true /\ NoDup [2; 0] /\ Forall (in_buffer [x00; x05; xff]) [2; 0]
  /\ String.substring 0 (Nat.min (String.length "101") (length [2; 0]))
       (extractLSB (embedLSB [x00; x05; xff] "101" [2; 0]) [2; 0])
     = String.substring 0 (Nat.min (String.length "101") (length [2; 0])) "101".
Proof.
  assert (Hnd : NoDup [2; 0]).
  { apply NoDup_cons; split; [| apply NoDup_singleton].
    intros H. apply list_elem_of_singleton in H. lia. }
  assert (Hin : Forall (in_buffer [x00; x05; xff]) [2; 0]).
  { repeat constructor; unfold in_buffer; simpl; lia. }
  split; [reflexivity |]. split; [exact Hnd |]. split; [exact Hin |].
  exact (proj1 (extractLSB_embedLSB_distinct_inside
                  [x00; x05; xff] "101" [2; 0] eq_refl Hnd Hin)).
Defined.

(** C1 as stated fails for a position listed twice (the later bit
    overwrites the earlier one) and for a position beyond the end of the
    buffer (no bit is written or read for it). *)
Lemma extractLSB_embedLSB_repeated_or_outside :
  String.substring 0 (Nat.min (String.length "10") (length [0; 0]))
    (extractLSB (embedLSB [x00; x00] "10" [0; 0]) [0; 0])
  <> String.substring 0 (Nat.min (String.length "10") (length [0; 0])) "10"
  /\ String.substring 0 (Nat.min (String.length "1") (length [5]))
       (extractLSB (embedLSB [x00] "1" [5]) [5])
     <> String.substring 0 (Nat.min (String.length "1") (length [5])) "1".
Proof. split; vm_compute; discriminate. Qed.

(** ** [generateEmbedPositions] *)

Section Generate.

Variables (step totalPixels : Z).

(** The loop stops for its own condition, not for lack of fuel: with
    [2048 - i] iterations left at index [i], one more changes nothing. *)
Lemma generate_loop_stops (fuel : nat) : forall (i : Z) (acc : list Z),
  2048 <= i + Z.of_nat fuel ->
  generate_loop (S fuel) i step totalPixels acc
  = generate_loop fuel i step totalPixels acc.
Proof.
  induction fuel as [|fuel IH]; intros i acc Hi.
  - simpl. destruct (Z.ltb_spec i 2048); [lia | reflexivity].
  - change (generate_loop (S (S fuel)) i step totalPixels acc)
      with (if (i <? 2048) && (i * step <? totalPixels)
            then generate_loop (S fuel) (i + 1) step totalPixels (acc ++ [i * step])
            else acc).
    rewrite IH by lia. reflexivity.
Qed.

Lemma generate_loop_exit (fuel : nat) (i : Z) (acc : list Z) :
  totalPixels <= i * step -> generate_loop fuel i step totalPixels acc = acc.
Proof.
  intros H. destruct fuel; simpl; [reflexivity |].
  destruct (Z.ltb_spec (i * step) totalPixels); [lia |].
  by rewrite andb_false_r.
Qed.

Lemma generate_loop_length (fuel : nat) : forall (i : Z) (acc : list Z),
  (length (generate_loop fuel i step totalPixels acc) <= length acc + fuel)%nat.
Proof.
  induction fuel as [|fuel IH]; intros i acc; simpl; [lia |].
  destruct ((i <? 2048) && (i * step <? totalPixels)); [| lia].
  specialize (IH (i + 1) (acc ++ [i * step])).
  rewrite length_app in IH. simpl in IH. lia.
Qed.

Lemma generate_loop_below (fuel : nat) : forall (i : Z) (acc : list Z),
  Forall (fun p => p < totalPixels) acc ->
  Forall (fun p => p < totalPixels) (generate_loop fuel i step totalPixels acc).
Proof.
  induction fuel as [|fuel IH]; intros i acc Hacc; simpl; [assumption |].
  destruct (Z.ltb_spec i 2048); simpl; [| assumption].
  destruct (Z.ltb_spec (i * step) totalPixels); [| assumption].
  apply IH. apply Forall_app. split; [assumption |]. by repeat constructor.
Qed.

(** When the condition holds at every index the loop meets, it pushes
    [k * step] for each of them. *)
Lemma generate_loop_full (fuel : nat) : forall (i : Z) (acc : list Z),
  (forall k, i <= k < i + Z.of_nat fuel -> k < 2048 /\ k * step < totalPixels) ->
  generate_loop fuel i step totalPixels acc
  = acc ++ ((fun k => k * step) <$> seqZ i (Z.of_nat fuel)).
Proof.
  induction fuel as [|fuel IH]; intros i acc H.
  - simpl. by rewrite app_nil_r.
  - simpl generate_loop.
    destruct (H i ltac:(lia)) as [H1 H2].
    destruct (Z.ltb_spec i 2048); [| lia].
    destruct (Z.ltb_spec (i * step) totalPixels); [| lia].
    simpl. rewrite IH by (intros k Hk; apply H; lia).
    rewrite (seqZ_cons i (Z.of_nat (S fuel))) by lia.
    replace (Z.pred (Z.of_nat (S fuel))) with (Z.of_nat fuel) by lia.
    replace (Z.succ i) with (i + 1) by lia.
    rewrite fmap_cons. by rewrite <- app_assoc.
Qed.

End Generate.

(** For every image with at least one sample, the positions are the first
    2048 multiples of [step = floor(totalPixels / 2048)]. *)
Lemma generateEmbedPositions_multiples (totalPixels : Z) :
  0 < totalPixels ->
  generateEmbedPositions totalPixels
  = (fun k => k * (totalPixels / 2048)) <$> seqZ 0 2048.
Proof.
  intros Ht. unfold generateEmbedPositions.
  rewrite generate_loop_full; [reflexivity |].
  intros k Hk. split; [lia |].
  pose proof (Z.mul_div_le totalPixels 2048 ltac:(lia)).
  pose proof (Z.div_pos totalPixels 2048 ltac:(lia) ltac:(lia)).
  nia.
Qed.

Lemma generateEmbedPositions_empty (totalPixels : Z) :
  totalPixels <= 0 -> generateEmbedPositions totalPixels = [].
Proof.
  intros Ht. unfold generateEmbedPositions.
  apply generate_loop_exit. lia.
Qed.

(** For every input there are at most 2048 positions, each below
    [totalPixels]. *)
Lemma generateEmbedPositions_bounds (totalPixels : Z) :
  (length (generateEmbedPositions totalPixels) <= 2048)%nat
  /\ Forall (fun p => p < totalPixels) (generateEmbedPositions totalPixels).
Proof.
  unfold generateEmbedPositions. split.
  - apply (generate_loop_length _ _ 2048 0 []).
  - apply generate_loop_below. constructor.
Qed.

(** From 2048 samples on, [step] is at least 1 and the positions are
    strictly increasing. *)
Lemma generateEmbedPositions_increasing (totalPixels : Z) :
  2048 <= totalPixels -> strictly_increasing (generateEmbedPositions totalPixels).
Proof.
  intros Ht. rewrite generateEmbedPositions_multiples by lia.
  intros i j x y Hij Hi Hj.
  rewrite list_lookup_fmap in Hi, Hj.
  destruct (seqZ 0 2048 !! i) as [a|] eqn:Ha; [| discriminate].
  destruct (seqZ 0 2048 !! j) as [b|] eqn:Hb; [| discriminate].
  apply lookup_seqZ in Ha as [-> _]. apply lookup_seqZ in Hb as [-> _].
  simpl in Hi, Hj. injection Hi as <-. injection Hj as <-.
  assert (1 <= totalPixels / 2048) by (apply Z.div_le_lower_bound; lia).
  nia.
Qed.

(** Below 2048 samples [step] is 0 and position 0 is repeated. *)
Lemma generateEmbedPositions_repeats_zero (totalPixels : Z) :
  0 < totalPixels < 2048 ->
  generateEmbedPositions totalPixels !! 0%nat = Some 0
  /\ generateEmbedPositions totalPixels !! 1%nat = Some 0
  /\ ¬ strictly_increasing (generateEmbedPositions totalPixels).
Proof.
  intros Ht. rewrite generateEmbedPositions_multiples by lia.
  rewrite (Z.div_small totalPixels 2048) by lia.
  assert (H0 : ((fun k => k * 0) <$> seqZ 0 2048) !! 0%nat = Some 0).
  { rewrite list_lookup_fmap, lookup_seqZ_lt by lia. reflexivity. }
  assert (H1 : ((fun k => k * 0) <$> seqZ 0 2048) !! 1%nat = Some 0).
  { rewrite list_lookup_fmap, lookup_seqZ_lt by lia. reflexivity. }
  split; [exact H0 |]. split; [exact H1 |].
  intros Hinc. specialize (Hinc 0%nat 1%nat 0 0 ltac:(lia) H0 H1). lia.
Qed.

(** C4 at a 16 x 16 RGBA image (1024 samples): [step] is 0 and the 2048
    positions are all 0, so the sequence is not strictly increasing. *)
Theorem generateEmbedPositions_small_image :
  generateEmbedPositions 1024 = replicate 2048 0
  /\ ¬ strictly_increasing (generateEmbedPositions 1024).
Proof.
  assert (H : generateEmbedPositions 1024 = replicate 2048 0)
    by (vm_compute; reflexivity).
  split; [exact H |].
  intros Hinc. rewrite H in Hinc.
  specialize (Hinc 0%nat 1%nat 0 0 ltac:(lia) eq_refl eq_refl). lia.
Qed.

(** ** [CryptographyService.verify] *)

Section Verify.

Variable rt : Runtime.
Implicit Types (data signature publicKey signatureType : string).

Lemma verify_returns data signature publicKey signatureType :
  exists b : bool, verify rt data signature publicKey signatureType = Return b.
Proof.
  unfold verify, try_catch.
  destruct (verify_body rt data signature publicKey signatureType) as [b | e]; eauto.
Qed.

Lemma verify_catches data signature publicKey signatureType (e : JS.thrown) :
  verify_body rt data signature publicKey signatureType = Throw e ->
  verify rt data signature publicKey signatureType = Return false.
Proof. unfold verify. by intros ->. Qed.

Lemma verify_not_true data signature publicKey signatureType :
  verify rt data signature publicKey signatureType <> Return true ->
  verify rt data signature publicKey signatureType = Return false.
Proof.
  destruct (verify_returns data signature publicKey signatureType) as [[|] ->];
    [contradiction | reflexivity].
Qed.

(** [verify] answers [true] only when the primitive did. *)
Lemma verify_true_inv data signature publicKey signatureType :
  verify rt data signature publicKey signatureType = Return true ->
  exists algorithm,
    crypto_verify rt algorithm data publicKey signature = Return true.
Proof.
  unfold verify, verify_body, try_catch.
  destruct (getSigningAlgorithm signatureType) as [algorithm | e]; simpl.
  - intros H. exists algorithm.
    destruct (crypto_verify rt algorithm data publicKey signature) as [b | e];
      [by injection H as -> | discriminate].
  - discriminate.
Qed.

Lemma getSigningAlgorithm_unknown signatureType :
  signatureType <> "RSA-2048" -> signatureType <> "RSA-4096" ->
  signatureType <> "ECDSA-256" ->
  getSigningAlgorithm signatureType
  = Throw (JS.ErrorObj ("Unknown signature type: " +:+ signatureType)).
Proof.
  intros H1 H2 H3. unfold getSigningAlgorithm.
  apply String.eqb_neq in H1, H2, H3. by rewrite H1, H2, H3.
Qed.

End Verify.

(** C6. [verify] always returns a boolean: whatever is thrown inside its
    [try] block is answered by [false], be it the unknown scheme that
    [getSigningAlgorithm] rejects or an error of the cryptographic
    primitive on a malformed key or signature. *)
Theorem verify_never_throws (rt : Runtime) (data signature publicKey signatureType : string) :
  (exists b : bool, verify rt data signature publicKey signatureType = Return b)
  /\ (forall e, verify_body rt data signature publicKey signatureType = Throw e ->
        verify rt data signature publicKey signatureType = Return false)
  /\ (signatureType <> "RSA-2048" -> signatureType <> "RSA-4096" ->
      signatureType <> "ECDSA-256" ->
      verify rt data signature publicKey signatureType = Return false)
  /\ (forall algorithm e,
        getSigningAlgorithm signatureType = Return algorithm ->
        crypto_verify rt algorithm data publicKey signature = Throw e ->
        verify rt data signature publicKey signatureType = Return false).
Proof.
  split; [apply verify_returns |].
  split; [apply verify_catches |].
  split.
  - intros H1 H2 H3.
    apply (verify_catches rt _ _ _ _
             (JS.ErrorObj ("Unknown signature type: " +:+ signatureType))).
    unfold verify_body. by rewrite getSigningAlgorithm_unknown.
  - intros algorithm e Ha Hc. apply (verify_catches rt _ _ _ _ e).
    unfold verify_body. rewrite Ha. exact Hc.
Qed.

Lemma verify_never_throws_witness :
  verify Demo.rt "digest" "a" "malformed" "RSA-2048" = Return false
  /\ verify Demo.rt "digest" "a" "a" "DSA-1024" = Return false.
Proof.
  pose proof (verify_never_throws Demo.rt "digest" "a" "malformed" "RSA-2048") as H1.
  pose proof (verify_never_throws Demo.rt "digest" "a" "a" "DSA-1024") as H2.
  split.
  - exact (proj2 (proj2 (proj2 H1)) "sha256"
             (JS.ErrorObj "DECODER routines::unsupported") eq_refl eq_refl).
  - apply (proj1 (proj2 (proj2 H2))); discriminate.
Defined.

(** ** [attemptSignatureExtraction] and [verifyImage] *)

Section Matcher.

Variable rt : Runtime.
Implicit Types (pd : list byte) (images : list AuthenticatedImage) (attempts : list Attempt).

Lemma attempt_loop pd images attempts :
  fold_left (extraction_step pd) images attempts = attempts ++ attempts_of pd images.
Proof.
  revert attempts. induction images as [|image images IH]; intros attempts; simpl.
  - by rewrite app_nil_r.
  - rewrite IH. unfold extraction_step.
    destruct (extraction_body pd image) as [[attempt |] | e]; simpl;
      try reflexivity.
    by rewrite <- app_assoc.
Qed.

Lemma attemptSignatureExtraction_store pd images :
  attemptSignatureExtraction (store_of images) pd = attempts_of pd images.
Proof. unfold attemptSignatureExtraction. simpl. apply attempt_loop. Qed.

Lemma attempts_of_app pd images1 images2 :
  attempts_of pd (images1 ++ images2) = attempts_of pd images1 ++ attempts_of pd images2.
Proof. apply flat_map_app. Qed.

Lemma attempts_of_cons pd image images :
  attempts_of pd (image :: images) = attempts_of pd [image] ++ attempts_of pd images.
Proof. apply (attempts_of_app pd [image] images). Qed.

(** The attempt pushed for a record whose positions are an array. *)
Lemma attempts_of_array pd image (positions : list Z) :
  embedPositions image = JArray positions ->
  attempts_of pd [image]
  = [ {| success := true;
         at_imageId := id image;
         at_signature := bitsToSignature (extractLSB pd positions);
         at_publicKey := publicKey image;
         at_signatureType := signatureType image;
         at_embedPositions := positions;
         at_integrityScore := calculateIntegrityScore (extractLSB pd positions);
         at_metadata := {| md_artistName := artistName image;
                           md_artworkTitle := artworkTitle image;
                           md_creationDate := creationDate image |} |} ].
Proof. unfold attempts_of, extraction_body. simpl. by intros ->. Qed.

Lemma attempts_of_not_verifying pd image :
  ¬ record_verifies rt pd image -> Forall (rejected rt pd) (attempts_of pd [image]).
Proof.
  intros Hnot. destruct (embedPositions image) as [| positions |] eqn:Hpos.
  - unfold attempts_of, extraction_body. simpl. rewrite Hpos. constructor.
  - rewrite (attempts_of_array pd image positions Hpos).
    constructor; [| constructor]. unfold rejected. simpl.
    apply verify_not_true. intros Hv. apply Hnot. by exists positions.
  - unfold attempts_of, extraction_body. simpl. rewrite Hpos. constructor.
Qed.

Lemma attempts_of_none_verifying pd images :
  Forall (fun image => ¬ record_verifies rt pd image) images ->
  Forall (rejected rt pd) (attempts_of pd images).
Proof.
  induction 1 as [|image images Hnot _ IH]; [constructor |].
  rewrite attempts_of_cons. apply Forall_app. split; [| exact IH].
  by apply attempts_of_not_verifying.
Qed.

Lemma attempts_of_raising pd image :
  processing_raises rt pd image -> Forall (rejected rt pd) (attempts_of pd [image]).
Proof.
  intros [[e He] | (positions & e & Hpos & He)].
  - unfold attempts_of. simpl. rewrite He. constructor.
  - rewrite (attempts_of_array pd image positions Hpos).
    constructor; [| constructor]. unfold rejected. simpl.
    by apply (verify_catches rt _ _ _ _ e).
Qed.

Lemma verify_loop_rejected pd (attempt : Attempt) attempts :
  rejected rt pd attempt ->
  verify_loop rt pd (attempt :: attempts) = verify_loop rt pd attempts.
Proof.
  unfold rejected. intros H. simpl. rewrite H. simpl.
  by destruct (success attempt).
Qed.

(** Rejected attempts in the middle of the list do not change the result
    of the loop. *)
Lemma verify_loop_skip pd attempts1 attempts2 attempts3 :
  Forall (rejected rt pd) attempts2 ->
  verify_loop rt pd (attempts1 ++ attempts2 ++ attempts3)
  = verify_loop rt pd (attempts1 ++ attempts3).
Proof.
  intros H2. induction attempts1 as [|a attempts1 IH].
  - simpl. induction H2 as [|a attempts2 Ha _ IH]; [reflexivity |].
    simpl app. by rewrite verify_loop_rejected.
  - simpl. by rewrite IH.
Qed.

Lemma verify_loop_all_rejected pd attempts :
  Forall (rejected rt pd) attempts ->
  verify_loop rt pd attempts = Return no_signature_result.
Proof.
  intros H. pose proof (verify_loop_skip pd [] attempts [] H) as Hs.
  simpl in Hs. by rewrite app_nil_r in Hs.
Qed.

(** The loop never throws: it returns the result for one of the attempts,
    or the result that reports no valid signature. *)
Lemma verify_loop_cases pd attempts :
  verify_loop rt pd attempts = Return no_signature_result
  \/ exists attempt, attempt ∈ attempts
                     /\ verify_loop rt pd attempts = Return (valid_result attempt).
Proof.
  induction attempts as [|a attempts IH]; [by left |].
  simpl. destruct (success a).
  - destruct (verify_returns rt
                (computeImageHash rt pd (at_embedPositions a))
                (at_signature a) (at_publicKey a) (at_signatureType a)) as [[|] ->];
      simpl.
    + right. exists a. split; [apply list_elem_of_here | reflexivity].
    + destruct IH as [IH | (a' & Hin & IH)]; [by left |].
      right. exists a'. split; [by apply list_elem_of_further | exact IH].
  - destruct IH as [IH | (a' & Hin & IH)]; [by left |].
    right. exists a'. split; [by apply list_elem_of_further | exact IH].
Qed.

Lemma verifyImage_cases (st : Storage) (imageBuffer : list byte) :
  (exists e, verifyImage rt st imageBuffer = Return (failure_result e))
  \/ verifyImage rt st imageBuffer = Return no_signature_result
  \/ (exists attempt, verifyImage rt st imageBuffer = Return (valid_result attempt)).
Proof.
  unfold verifyImage. destruct (sharp_raw rt imageBuffer) as [raw | e]; simpl.
  - destruct (verify_loop_cases (data raw) (attemptSignatureExtraction st (data raw)))
      as [-> | (a & _ & ->)]; simpl; eauto.
  - left. by exists e.
Qed.


End Matcher.

(** ** The integrity score of extracted bits *)

Lemma filter_bit_chars (bits : string) :
  bitstring bits = true ->
  length (List.filter is_bit_char (list_ascii_of_string bits)) = String.length bits.
Proof.
  induction bits as [|c bits IH]; [reflexivity |].
  simpl. intros H. apply andb_true_iff in H as [Hc H].
  rewrite Hc. simpl. by rewrite IH.
Qed.

Lemma round_percent_all (n : Z) : 0 < n -> round_percent n n = JS.Num 100.
Proof.
  intros Hn. unfold round_percent.
  destruct (Z.eqb_spec n 0); [lia |].
  replace ((200 * n + n) / (2 * n)) with 100; [reflexivity |].
  apply (Z.div_unique_pos _ _ 100 n); lia.
Qed.

Lemma calculateIntegrityScore_bitstring (bits : string) :
  bitstring bits = true -> bits <> EmptyString ->
  calculateIntegrityScore bits = JS.Num 100.
Proof.
  intros Hb Hne. unfold calculateIntegrityScore.
  rewrite filter_bit_chars by assumption.
  apply round_percent_all. destruct bits; [contradiction | simpl; lia].
Qed.

(** No bits extracted: [0 / 0] is [NaN]. *)
Lemma calculateIntegrityScore_empty : calculateIntegrityScore EmptyString = JS.NaN.
Proof. reflexivity. Qed.

Lemma bitsToSignature_nonempty (bits : string) :
  bitsToSignature bits <> EmptyString -> bits <> EmptyString.
Proof. intros H ->. by apply H. Qed.

Lemma verify_loop_drop (rt : Runtime) (pd : list byte) (attempts1 attempts2 : list Attempt) :
  Forall (rejected rt pd) attempts1 ->
  verify_loop rt pd (attempts1 ++ attempts2) = verify_loop rt pd attempts2.
Proof. intros H. apply (verify_loop_skip rt pd [] attempts1 attempts2 H). Qed.

(** C7. When some stored record verifies against the candidate image,
    [verifyImage] answers for the first such record in the order of the
    store: [isValid] is true, the id is that record's, the signature is the
    one extracted at its positions, and the integrity score is 100.  The
    cryptographic primitive is one that accepts no empty signature. *)
Theorem verifyImage_first_verifying_record (rt : Runtime) (st : Storage) (imageBuffer : list byte) (raw : RawImage) (before after : list AuthenticatedImage) (image : AuthenticatedImage) (positions : list Z) :
  (forall algorithm data key, crypto_verify rt algorithm data key EmptyString <> Return true) ->
  sharp_raw rt imageBuffer = Return raw ->
  getAllAuthenticatedImages st = Return (before ++ image :: after) ->
  Forall (fun earlier => ¬ record_verifies rt (data raw) earlier) before ->
  embedPositions image = JArray positions ->
  verify rt (computeImageHash rt (data raw) positions)
    (bitsToSignature (extractLSB (data raw) positions))
    (publicKey image) (signatureType image) = Return true ->
  verifyImage rt st imageBuffer
  = Return {| isValid := true;
              imageId := Some (id image);
              extractedSignature := Some (bitsToSignature (extractLSB (data raw) positions));
              integrityScore := JS.Num 100;
              method := "LSB_extraction";
              errorMessage := None;
              imageMetadata := Some {| md_artistName := artistName image;
                                       md_artworkTitle := artworkTitle image;
                                       md_creationDate := creationDate image |} |}.
Proof.
  intros Hcrypto Hraw Hstore Hbefore Hpos Hverify.
  unfold verifyImage. rewrite Hraw. simpl.
  unfold attemptSignatureExtraction. rewrite Hstore, attempt_loop. simpl.
  rewrite attempts_of_app, attempts_of_cons.
  rewrite (attempts_of_array (data raw) image positions Hpos).
  rewrite verify_loop_drop by (by apply attempts_of_none_verifying).
  simpl. rewrite Hverify. simpl.
  unfold valid_result. simpl. do 2 f_equal.
  apply calculateIntegrityScore_bitstring; [apply extractLSB_bitstring |].
  apply bitsToSignature_nonempty. intros Hempty.
  rewrite Hempty in Hverify.
  destruct (verify_true_inv rt _ _ _ _ Hverify) as [algorithm Ha].
  by apply (Hcrypto algorithm _ _) in Ha.
Qed.

Lemma demo_rejects_empty_signature (algorithm data key : string) :
  crypto_verify Demo.rt algorithm data key EmptyString <> Return true.
Proof.
  simpl. destruct (String.eqb key "malformed"); [discriminate |].
  rewrite andb_false_r. discriminate.
Qed.

Lemma demo_earlier_records_fail :
  Forall (fun earlier => ¬ record_verifies Demo.rt Demo.stego earlier)
    [Demo.corrupt; Demo.other].
Proof.
  repeat constructor.
  - intros (ps & Hps & _). discriminate.
  - intros (ps & Hps & Hv). injection Hps as <-. vm_compute in Hv. discriminate.
Qed.

Lemma verifyImage_first_verifying_record_witness :
  isValid <$> verifyImage Demo.rt (store_of Demo.images) Demo.stego = Return true
  /\ imageId <$> verifyImage Demo.rt (store_of Demo.images) Demo.stego = Return (Some 3).
Proof.
  rewrite (verifyImage_first_verifying_record Demo.rt (store_of Demo.images)
             Demo.stego
             {| data := Demo.stego; width := 1; height := 1; channels := 4 |}
             [Demo.corrupt; Demo.other] [] Demo.signed [0; 1; 2; 3]
             demo_rejects_empty_signature eq_refl eq_refl
             demo_earlier_records_fail eq_refl eq_refl).
  split; reflexivity.
Defined.

(** C8. When no stored record verifies against the candidate image,
    [verifyImage] returns a result with [isValid] false, the integrity
    score 0 and a message that is not empty.  And a record whose processing
    raises an exception is only passed over: the result is the one of the
    scan without that record. *)
Theorem verifyImage_no_match_and_fault_isolation (rt : Runtime) (imageBuffer : list byte) :
  (forall st : Storage,
     (forall raw images,
        sharp_raw rt imageBuffer = Return raw ->
        getAllAuthenticatedImages st = Return images ->
        Forall (fun image => ¬ record_verifies rt (data raw) image) images) ->
     exists message : string,
       message <> EmptyString
       /\ verifyImage rt st imageBuffer
          = Return {| isValid := false;
                      imageId := None;
                      extractedSignature := None;
                      integrityScore := JS.Num 0;
                      method := "LSB_extraction";
                      errorMessage := Some message;
                      imageMetadata := None |})
  /\ (forall (before after : list AuthenticatedImage) (bad : AuthenticatedImage),
        (forall raw, sharp_raw rt imageBuffer = Return raw ->
                     processing_raises rt (data raw) bad) ->
        verifyImage rt (store_of (before ++ bad :: after)) imageBuffer
        = verifyImage rt (store_of (before ++ after)) imageBuffer).
Proof.
  split.
  - intros st Hnone. unfold verifyImage.
    destruct (sharp_raw rt imageBuffer) as [raw | e] eqn:Hraw; simpl.
    + exists "No valid signature found or signature verification failed".
      split; [discriminate |].
      unfold attemptSignatureExtraction.
      destruct (getAllAuthenticatedImages st) as [images | e] eqn:Hstore.
      * rewrite attempt_loop. simpl.
        rewrite verify_loop_all_rejected; [reflexivity |].
        apply attempts_of_none_verifying. by apply Hnone.
      * reflexivity.
    + exists ("Verification failed: " +:+ JS.message_of e).
      split; [discriminate | reflexivity].
  - intros before after bad Hbad. unfold verifyImage.
    destruct (sharp_raw rt imageBuffer) as [raw | e] eqn:Hraw; simpl; [| reflexivity].
    rewrite !attemptSignatureExtraction_store.
    rewrite !attempts_of_app, attempts_of_cons.
    f_equal. apply verify_loop_skip. apply attempts_of_raising. by apply Hbad.
Qed.

Lemma demo_no_record_verifies :
  Forall (fun image => ¬ record_verifies Demo.rt Demo.unrelated image) Demo.images.
Proof.
  repeat constructor.
  - intros (ps & Hps & _). discriminate.
  - intros (ps & Hps & Hv). injection Hps as <-. vm_compute in Hv. discriminate.
  - intros (ps & Hps & Hv). injection Hps as <-. vm_compute in Hv. discriminate.
Qed.

Lemma verifyImage_no_match_and_fault_isolation_witness :
  (exists message : string,
     message <> EmptyString
     /\ verifyImage Demo.rt (store_of Demo.images) Demo.unrelated
        = Return {| isValid := false;
                    imageId := None;
                    extractedSignature := None;
                    integrityScore := JS.Num 0;
                    method := "LSB_extraction";
                    errorMessage := Some message;
                    imageMetadata := None |})
  /\ verifyImage Demo.rt (store_of ([] ++ Demo.corrupt :: [Demo.other; Demo.signed])) Demo.stego
     = verifyImage Demo.rt (store_of ([] ++ [Demo.other; Demo.signed])) Demo.stego.
Proof.
  split.
  - apply (proj1 (verifyImage_no_match_and_fault_isolation Demo.rt Demo.unrelated)).
    intros raw images Hraw Himages.
    injection Hraw as <-. injection Himages as <-.
    exact demo_no_record_verifies.
  - apply (proj2 (verifyImage_no_match_and_fault_isolation Demo.rt Demo.stego)).
    intros raw _. left.
    exists (JS.ErrorObj "positions is not iterable"). reflexivity.
Defined.

(** ** [AttackSimulationService] *)

Section Attack.

Variables (rt : Runtime) (st : Storage).




(** What [simulateAttack] returns when it returns. *)
Lemma simulateAttack_inv originalBuffer (attack : string) image (result : AttackResult) :
  simulateAttack rt st originalBuffer attack image = Return result ->
  exists attacked verificationResult,
    apply_attack rt originalBuffer attack = Return attacked
    /\ verifyImage rt st attacked.2 = Return verificationResult
    /\ attack = attackType result
    /\ verificationPassed result = isValid verificationResult
    /\ integrityLoss result = js_minus_from_100 (integrityScore verificationResult)
    /\ extractionSuccessful result
       = bool_decide (extractedSignature verificationResult ≠ None).
Proof.
  unfold simulateAttack.
  destruct (apply_attack rt originalBuffer attack) as [attacked | e]; simpl;
    [| discriminate].
  destruct (verifyImage rt st attacked.2) as [vr | e] eqn:Hv; simpl;
    [| discriminate].
  intros [= <-]. exists attacked, vr. simpl. by repeat split.
Qed.


End Attack.






(** * Further properties *)

(** ** Signatures as bit strings, both ways *)

Section SignatureBits.

Lemma lower_hex_value (c : ascii) :
  lower_hex c = true -> exists n, hex_value c = Some n.
Proof.
  unfold lower_hex, hex_value. intros H.
  destruct ((48 <=? Z.of_nat (nat_of_ascii c)) && (Z.of_nat (nat_of_ascii c) <=? 57));
    [eauto |].
  simpl in H. rewrite H. eauto.
Qed.

Lemma nibble_bits_length (v : option Z) : String.length (nibble_bits v) = 4%nat.
Proof. by destruct v. Qed.

(** Four binary digits print as one lower-case hexadecimal digit. *)
Lemma nibble_decode (a b c d : ascii) :
  is_bit_char a = true -> is_bit_char b = true ->
  is_bit_char c = true -> is_bit_char d = true ->
  exists h : ascii,
    lower_hex h = true
    /\ Radix.toString16
         (Radix.parseInt2 (String a (String b (String c (String d EmptyString)))))
       = String h EmptyString.
Proof.
  intros Ha Hb Hc Hd.
  destruct (is_bit_char_cases a Ha) as [-> | ->];
    destruct (is_bit_char_cases b Hb) as [-> | ->];
    destruct (is_bit_char_cases c Hc) as [-> | ->];
    destruct (is_bit_char_cases d Hd) as [-> | ->];
    (eexists; split; [| reflexivity]; reflexivity).
Qed.

Lemma bitsToSignature_short (bits : string) :
  (String.length bits < 4)%nat -> bitsToSignature bits = EmptyString.
Proof.
  destruct bits as [|a [|b [|c [|d rest]]]]; simpl; try reflexivity. lia.
Qed.

Lemma bitsToSignature_signatureToBits_append (signature rest : string) :
  lower_hex_string signature = true ->
  bitsToSignature (signatureToBits signature +:+ rest)
  = signature +:+ bitsToSignature rest.
Proof.
  induction signature as [|c signature IH]; [reflexivity |].
  simpl. intros H. apply andb_true_iff in H as [Hc H].
  rewrite append_assoc. rewrite (proj2 (nibble_roundtrip c Hc)).
  by rewrite IH, append_cons.
Qed.

Lemma div4_succ (n : nat) : (S (S (S (S n))) / 4 = S (n / 4))%nat.
Proof.
  pose proof (Nat.div_add_l 1 4 n ltac:(lia)) as H.
  change (1 * 4 + n)%nat with (S (S (S (S n)))) in H. lia.
Qed.

Lemma substring_empty (n : nat) : String.substring 0 n EmptyString = EmptyString.
Proof. by destruct n. Qed.

Lemma substring_all (s : string) (n : nat) :
  (String.length s <= n)%nat -> String.substring 0 n s = s.
Proof.
  revert n. induction s as [|c s IH]; intros [|n] H; simpl in *;
    try reflexivity; try lia.
  f_equal. apply IH. lia.
Qed.

Lemma substring_prefix_length (s : string) (n : nat) :
  String.length (String.substring 0 n s) = Nat.min n (String.length s).
Proof.
  revert n. induction s as [|c s IH]; intros [|n]; simpl; try reflexivity.
  by rewrite IH.
Qed.

(** Cutting the bits of a signature after [n] of them and reading them back
    gives the first [n / 4] digits of the signature. *)
Lemma bitsToSignature_truncated_bits (signature : string) : forall n : nat,
  lower_hex_string signature = true ->
  bitsToSignature (String.substring 0 n (signatureToBits signature))
  = String.substring 0 (n / 4) signature.
Proof.
  induction signature as [|c signature IH]; intros n H.
  - simpl signatureToBits. by rewrite !substring_empty.
  - simpl in H. apply andb_true_iff in H as [Hc H].
    destruct (lower_hex_value c Hc) as [v Hv].
    pose proof (proj2 (nibble_roundtrip c Hc)) as Hr. rewrite Hv in Hr.
    simpl signatureToBits. rewrite Hv. simpl nibble_bits.
    rewrite !append_cons, append_empty_l.
    destruct (le_lt_dec 4 n) as [Hn | Hn].
    + destruct n as [|[|[|[|n]]]]; try lia.
      rewrite div4_succ.
      simpl String.substring.
      specialize (Hr (String.substring 0 n (signatureToBits signature))).
      simpl nibble_bits in Hr. rewrite !append_cons, append_empty_l in Hr.
      rewrite Hr. by rewrite IH.
    + rewrite (Nat.div_small n 4) by lia.
      rewrite substring_0_0. apply bitsToSignature_short.
      rewrite substring_prefix_length. lia.
Qed.

(** The signature read from a bit string has one lower-case hexadecimal
    digit for every four bits; a last group of one to three bits gives
    nothing. *)
Lemma bitsToSignature_bitstring (n : nat) : forall bits : string,
  (String.length bits <= n)%nat -> bitstring bits = true ->
  lower_hex_string (bitsToSignature bits) = true
  /\ String.length (bitsToSignature bits) = (String.length bits / 4)%nat.
Proof.
  induction n as [|n IH]; intros bits Hlen Hbits.
  - destruct bits; [by split | simpl in Hlen; lia].
  - destruct bits as [|a [|b [|c [|d rest]]]]; try (by split).
    simpl in Hbits.
    apply andb_true_iff in Hbits as [Ha Hbits].
    apply andb_true_iff in Hbits as [Hb Hbits].
    apply andb_true_iff in Hbits as [Hc Hbits].
    apply andb_true_iff in Hbits as [Hd Hbits].
    destruct (nibble_decode a b c d Ha Hb Hc Hd) as (h & Hh & Heq).
    simpl bitsToSignature. rewrite Heq, append_cons, append_empty_l.
    destruct (IH rest ltac:(simpl in Hlen; lia) Hbits) as [IH1 IH2].
    split.
    + simpl. by rewrite Hh, IH1.
    + simpl String.length. rewrite IH2.
      by rewrite div4_succ.
Qed.

End SignatureBits.

(** X1. For a signature in lower-case hexadecimal, [signatureToBits] gives
    a bit string of four bits per digit, and [bitsToSignature] reads the
    signature back from it. *)
Theorem signature_bits_roundtrip (signature : string) :
  lower_hex_string signature = true ->
  bitstring (signatureToBits signature) = true
  /\ String.length (signatureToBits signature) = (4 * String.length signature)%nat
  /\ bitsToSignature (signatureToBits signature) = signature.
Proof.
  intros H. destruct (signatureToBits_bitstring signature H) as (H1 & H2 & H3).
  repeat split; assumption.
Qed.

Lemma signature_bits_roundtrip_witness :
  lower_hex_string "3fa0" = true
  /\ bitsToSignature (signatureToBits "3fa0") = "3fa0".
Proof.
  split; [reflexivity |].
  exact (proj2 (proj2 (signature_bits_roundtrip "3fa0" eq_refl))).
Defined.

(** X2. From any bit string [bitsToSignature] produces lower-case
    hexadecimal digits, one for every four bits: its length is
    [floor(len(bits) / 4)], and a last group of one to three bits is
    dropped. *)
Theorem bitsToSignature_one_digit_per_four_bits (bits : string) :
  bitstring bits = true ->
  lower_hex_string (bitsToSignature bits) = true
  /\ String.length (bitsToSignature bits) = (String.length bits / 4)%nat.
Proof.
  intros H. exact (bitsToSignature_bitstring (String.length bits) bits (le_n _) H).
Qed.

Lemma bitsToSignature_one_digit_per_four_bits_witness :
  bitstring "1010111101" = true
  /\ String.length (bitsToSignature "1010111101") = (String.length "1010111101" / 4)%nat.
Proof.
  split; [reflexivity |].
  exact (proj2 (bitsToSignature_one_digit_per_four_bits "1010111101" eq_refl)).
Defined.

(** ** What is extracted after embedding *)

Section Transcript.

Implicit Types (buf : list byte) (ps : list Z) (bits : string).

Lemma extractLSB_app buf ps1 ps2 :
  extractLSB buf (ps1 ++ ps2) = extractLSB buf ps1 +:+ extractLSB buf ps2.
Proof.
  induction ps1 as [|p ps1 IH]; [reflexivity |].
  simpl app. by rewrite !extractLSB_cons, IH, append_assoc.
Qed.

(** Extraction reads only the bytes at its positions. *)
Lemma extractLSB_agree buf1 buf2 ps :
  length buf1 = length buf2 ->
  (forall p, p ∈ ps -> 0 <= p -> buf1 !! Z.to_nat p = buf2 !! Z.to_nat p) ->
  extractLSB buf1 ps = extractLSB buf2 ps.
Proof.
  intros Hlen. induction ps as [|p ps IH]; intros H; [reflexivity |].
  rewrite !extractLSB_cons. f_equal.
  - unfold extracted_at, extract_step, JS.get. rewrite Hlen.
    destruct (p <? buffer_length buf2); [| reflexivity].
    destruct (Z.leb_spec 0 p); [| reflexivity].
    rewrite (H p); [reflexivity | apply list_elem_of_here | assumption].
  - apply IH. intros q Hq. apply H. by apply list_elem_of_further.
Qed.

(** A byte whose index is not among the positions that receive a bit is
    not written. *)
Lemma embed_loop_unused buf bits ps (j : nat) :
  Z.of_nat j ∉ take (String.length bits) ps ->
  embed_loop buf bits ps !! j = buf !! j.
Proof.
  revert buf ps. induction bits as [|c bits IH]; intros buf [|p ps] Hj; simpl;
    try reflexivity.
  simpl in Hj. apply not_elem_of_cons in Hj as [Hne Hj].
  rewrite IH by assumption. rewrite embed_step_lookup.
  case_decide; [congruence | reflexivity].
Qed.

(** With distinct positions inside the buffer, extraction gives the
    embedded bits, as many as there are positions for, followed by the
    bits that the input buffer had at the positions left over. *)
Lemma extract_embed_transcript ps : forall buf bits,
  bitstring bits = true -> NoDup ps -> Forall (in_buffer buf) ps ->
  extractLSB (embed_loop buf bits ps) ps
  = String.substring 0 (length ps) bits
    +:+ extractLSB buf (drop (String.length bits) ps).
Proof.
  induction ps as [|p ps IH]; intros buf bits Hbits Hnd Hin.
  - rewrite substring_0_0. by destruct bits.
  - destruct bits as [|c bits]; [reflexivity |].
    simpl in Hbits. apply andb_true_iff in Hbits as [Hc Hbits].
    apply NoDup_cons in Hnd as [Hp Hnd].
    apply Forall_cons in Hin as [[Hp0 Hp1] Hin].
    simpl embed_loop.
    destruct (lookup_lt_is_Some_2 buf (Z.to_nat p)) as [b Hb]; [lia |].
    assert (Hread : embed_loop (embed_step buf c p) bits ps !! Z.to_nat p
                    = Some (set_bit c b)).
    { rewrite embed_loop_other by (rewrite Z2Nat.id; assumption).
      rewrite embed_step_lookup.
      case_decide as Hne; [| rewrite Z2Nat.id in Hne; lia].
      by rewrite Hb. }
    rewrite extractLSB_cons.
    rewrite (extracted_at_inside _ p (set_bit c b) Hp0 Hread).
    rewrite lsb_char_set_bit by assumption.
    rewrite append_cons, append_empty_l. simpl String.substring.
    simpl String.length. simpl drop. rewrite append_cons. f_equal.
    rewrite IH; [| assumption | assumption |].
    + f_equal. apply extractLSB_agree; [apply embed_step_length |].
      intros q Hq Hq0. rewrite embed_step_lookup.
      case_decide as Heq; [| reflexivity].
      exfalso. apply Hp. rewrite Z2Nat.id in Heq by assumption. subst q.
      exact (subseteq_drop _ _ _ Hq).
    + eapply Forall_impl; [exact Hin |]. intros q. apply in_buffer_embed_step.
Qed.

Lemma extractLSB_short buf ps :
  (length ps < 4)%nat -> bitsToSignature (extractLSB buf ps) = EmptyString.
Proof.
  intros H. apply bitsToSignature_short. rewrite extractLSB_length.
  pose proof (List.filter_length_le (fun p => p <? buffer_length buf) ps). lia.
Qed.

End Transcript.

(** X3. With distinct positions inside the buffer, extracting after
    embedding a bit string gives the embedded bits, as many as there are
    positions for, followed by the least significant bits that the input
    buffer had at the positions left over; and a byte at a position that
    receives no bit is not written. *)
Theorem extractLSB_embedLSB_transcript (buf : list byte) (bits : string) (positions : list Z) :
  bitstring bits = true ->
  NoDup positions ->
  Forall (in_buffer buf) positions ->
  extractLSB (embedLSB buf bits positions) positions
  = String.substring 0 (length positions) bits
    +:+ extractLSB buf (drop (String.length bits) positions)
  /\ forall j : nat,
       Z.of_nat j ∉ take (String.length bits) positions ->
       embedLSB buf bits positions !! j = buf !! j.
Proof.
  intros Hbits Hnd Hin. split.
  - by apply extract_embed_transcript.
  - intros j. apply embed_loop_unused.
Qed.

Lemma demo_positions_distinct : NoDup [6; 4; 2; 0; 1; 3; 5; 7].
Proof. apply (bool_decide_unpack _). vm_compute. exact I. Qed.

Lemma demo_positions_inside (buf : list byte) :
  length buf = 8%nat -> Forall (in_buffer buf) [6; 4; 2; 0; 1; 3; 5; 7].
Proof. intros H. unfold in_buffer. rewrite H. repeat constructor; lia. Qed.

Lemma extractLSB_embedLSB_transcript_witness :
  extractLSB (embedLSB (replicate 8 xff) "010" [6; 4; 2; 0; 1; 3; 5; 7])
    [6; 4; 2; 0; 1; 3; 5; 7]
  = "01011111".
Proof.
  exact (proj1 (extractLSB_embedLSB_transcript (replicate 8 xff) "010"
                  [6; 4; 2; 0; 1; 3; 5; 7] eq_refl demo_positions_distinct
                  (demo_positions_inside (replicate 8 xff) eq_refl))).
Defined.

(** ** The signature recovered from an image *)

Section Recovered.

Implicit Types (buf : list byte) (ps : list Z) (signature : string).

Lemma recovered_truncated buf signature ps :
  lower_hex_string signature = true -> NoDup ps -> Forall (in_buffer buf) ps ->
  (length ps <= 4 * String.length signature)%nat ->
  bitsToSignature (extractLSB (embedLSB buf (signatureToBits signature) ps) ps)
  = String.substring 0 (length ps / 4) signature.
Proof.
  intros Hhex Hnd Hin Hlen.
  destruct (signatureToBits_bitstring signature Hhex) as (Hb & Hl & _).
  unfold embedLSB. rewrite extract_embed_transcript by assumption.
  rewrite drop_ge by lia. rewrite extractLSB_nil, append_empty_r.
  by apply bitsToSignature_truncated_bits.
Qed.

Lemma recovered_padded buf signature ps :
  lower_hex_string signature = true -> NoDup ps -> Forall (in_buffer buf) ps ->
  (4 * String.length signature <= length ps)%nat ->
  bitsToSignature (extractLSB (embedLSB buf (signatureToBits signature) ps) ps)
  = signature
    +:+ bitsToSignature (extractLSB buf (drop (4 * String.length signature) ps)).
Proof.
  intros Hhex Hnd Hin Hlen.
  destruct (signatureToBits_bitstring signature Hhex) as (Hb & Hl & _).
  unfold embedLSB. rewrite extract_embed_transcript by assumption.
  rewrite substring_all by lia. rewrite Hl.
  by apply bitsToSignature_signatureToBits_append.
Qed.

Lemma recovered_length buf signature ps :
  lower_hex_string signature = true -> Forall (in_buffer buf) ps ->
  String.length
    (bitsToSignature (extractLSB (embedLSB buf (signatureToBits signature) ps) ps))
  = (length ps / 4)%nat.
Proof.
  intros Hhex Hin.
  pose proof (bitsToSignature_bitstring _ _ (le_n _)
                (extractLSB_bitstring
                   (embedLSB buf (signatureToBits signature) ps) ps)) as [_ Hl].
  rewrite Hl. f_equal.
  apply extractLSB_inside.
  eapply Forall_impl; [exact Hin |]. intros q. unfold in_buffer, embedLSB.
  by rewrite embed_loop_length.
Qed.

Lemma recovered_exact buf signature ps :
  lower_hex_string signature = true -> NoDup ps -> Forall (in_buffer buf) ps ->
  String.length signature = (length ps / 4)%nat ->
  bitsToSignature (extractLSB (embedLSB buf (signatureToBits signature) ps) ps)
  = signature.
Proof.
  intros Hhex Hnd Hin Hlen.
  pose proof (Nat.div_mod (length ps) 4 ltac:(lia)) as Hdm.
  pose proof (Nat.mod_upper_bound (length ps) 4 ltac:(lia)) as Hmod.
  rewrite recovered_padded by (try assumption; lia).
  rewrite extractLSB_short; [apply append_empty_r |].
  rewrite length_drop. lia.
Qed.

End Recovered.

(** X4. With distinct positions inside the buffer and a signature in
    lower-case hexadecimal: when the signature has more bits than there are
    positions, what is recovered is the signature cut after
    [floor(len(positions) / 4)] digits; when it has fewer, what is
    recovered is the signature followed by the digits read from the bits
    that the input buffer had at the positions left over. *)
Theorem recovered_signature_truncated_or_padded (buf : list byte) (signature : string) (positions : list Z) :
  lower_hex_string signature = true ->
  NoDup positions ->
  Forall (in_buffer buf) positions ->
  ((length positions <= 4 * String.length signature)%nat ->
   bitsToSignature
     (extractLSB (embedLSB buf (signatureToBits signature) positions) positions)
   = String.substring 0 (length positions / 4) signature)
  /\ ((4 * String.length signature <= length positions)%nat ->
      bitsToSignature
        (extractLSB (embedLSB buf (signatureToBits signature) positions) positions)
      = signature
        +:+ bitsToSignature
              (extractLSB buf (drop (4 * String.length signature) positions))).
Proof.
  intros Hhex Hnd Hin. split; intros Hlen.
  - by apply recovered_truncated.
  - by apply recovered_padded.
Qed.

Lemma recovered_signature_truncated_or_padded_witness :
  bitsToSignature
    (extractLSB (embedLSB (replicate 8 xff) (signatureToBits "a50")
                   [6; 4; 2; 0; 1; 3; 5; 7]) [6; 4; 2; 0; 1; 3; 5; 7])
  = "a5"
  /\ bitsToSignature
       (extractLSB (embedLSB (replicate 8 xff) (signatureToBits "a")
                      [6; 4; 2; 0; 1; 3; 5; 7]) [6; 4; 2; 0; 1; 3; 5; 7])
     = "af".
Proof.
  split.
  - apply (proj1 (recovered_signature_truncated_or_padded (replicate 8 xff) "a50"
                    [6; 4; 2; 0; 1; 3; 5; 7] eq_refl demo_positions_distinct
                    (demo_positions_inside (replicate 8 xff) eq_refl))).
    simpl. lia.
  - apply (proj2 (recovered_signature_truncated_or_padded (replicate 8 xff) "a"
                    [6; 4; 2; 0; 1; 3; 5; 7] eq_refl demo_positions_distinct
                    (demo_positions_inside (replicate 8 xff) eq_refl))).
    simpl. lia.
Defined.

(** X5. With distinct positions inside the buffer, the signature that was
    embedded is recovered exactly if and only if it has
    [floor(len(positions) / 4)] digits: with the 2048 positions of
    [generateEmbedPositions], only a signature of 512 hexadecimal digits
    survives the round trip. *)
Theorem recovered_signature_exact_iff (buf : list byte) (signature : string) (positions : list Z) :
  lower_hex_string signature = true ->
  NoDup positions ->
  Forall (in_buffer buf) positions ->
  bitsToSignature
    (extractLSB (embedLSB buf (signatureToBits signature) positions) positions)
  = signature
  <-> String.length signature = (length positions / 4)%nat.
Proof.
  intros Hhex Hnd Hin. split.
  - intros Heq. rewrite <- Heq at 1. by apply recovered_length.
  - by apply recovered_exact.
Qed.

Lemma recovered_signature_exact_iff_witness :
  bitsToSignature
    (extractLSB (embedLSB (replicate 8 xff) (signatureToBits "a5")
                   [6; 4; 2; 0; 1; 3; 5; 7]) [6; 4; 2; 0; 1; 3; 5; 7])
  = "a5".
Proof.
  apply (recovered_signature_exact_iff (replicate 8 xff) "a5"
           [6; 4; 2; 0; 1; 3; 5; 7] eq_refl demo_positions_distinct
           (demo_positions_inside (replicate 8 xff) eq_refl)).
  reflexivity.
Defined.

(** ** Positions of an image of at least 2048 samples *)

Section LargeImage.

Lemma strictly_increasing_NoDup (l : list Z) : strictly_increasing l -> NoDup l.
Proof.
  intros Hinc. apply NoDup_alt. intros i j x Hi Hj.
  destruct (Nat.lt_trichotomy i j) as [Hlt | [Heq | Hgt]]; [| exact Heq |].
  - pose proof (Hinc i j x x Hlt Hi Hj). lia.
  - pose proof (Hinc j i x x Hgt Hj Hi). lia.
Qed.

Lemma generateEmbedPositions_length (totalPixels : Z) :
  0 < totalPixels -> length (generateEmbedPositions totalPixels) = 2048%nat.
Proof.
  intros Ht. rewrite generateEmbedPositions_multiples by assumption.
  rewrite length_fmap, length_seqZ. reflexivity.
Qed.

Lemma generateEmbedPositions_lookup (totalPixels : Z) (i : nat) :
  0 < totalPixels -> (i < 2048)%nat ->
  generateEmbedPositions totalPixels !! i = Some (Z.of_nat i * (totalPixels / 2048)).
Proof.
  intros Ht Hi. rewrite generateEmbedPositions_multiples by assumption.
  rewrite list_lookup_fmap, lookup_seqZ_lt by lia. reflexivity.
Qed.

Lemma generateEmbedPositions_inside (buf : list byte) :
  0 < buffer_length buf ->
  Forall (in_buffer buf) (generateEmbedPositions (buffer_length buf)).
Proof.
  intros Ht.
  pose proof (proj2 (generateEmbedPositions_bounds (buffer_length buf))) as Hup.
  rewrite generateEmbedPositions_multiples in * by assumption.
  pose proof (Z.div_pos (buffer_length buf) 2048 ltac:(lia) ltac:(lia)) as Hstep.
  rewrite Forall_forall in Hup. apply Forall_forall. intros p Hp. split.
  - apply list_elem_of_fmap in Hp as (k & -> & Hk).
    apply elem_of_seqZ in Hk. nia.
  - by apply Hup.
Qed.

End LargeImage.

(** X6. For an image of at least 2048 samples, [generateEmbedPositions]
    returns exactly 2048 positions, the i-th being
    [i * floor(totalPixels / 2048)]; they are strictly increasing, hence
    pairwise distinct, and all lie in [0, totalPixels). *)
Theorem generateEmbedPositions_large_image (totalPixels : Z) :
  2048 <= totalPixels ->
  length (generateEmbedPositions totalPixels) = 2048%nat
  /\ (forall i : nat, (i < 2048)%nat ->
        generateEmbedPositions totalPixels !! i
        = Some (Z.of_nat i * (totalPixels / 2048)))
  /\ strictly_increasing (generateEmbedPositions totalPixels)
  /\ NoDup (generateEmbedPositions totalPixels)
  /\ Forall (fun p => 0 <= p < totalPixels) (generateEmbedPositions totalPixels).
Proof.
  intros Ht.
  split; [apply generateEmbedPositions_length; lia |].
  split; [intros i Hi; apply generateEmbedPositions_lookup; lia |].
  split; [by apply generateEmbedPositions_increasing |].
  split; [by apply strictly_increasing_NoDup, generateEmbedPositions_increasing |].
  pose proof (proj2 (generateEmbedPositions_bounds totalPixels)) as Hup.
  rewrite Forall_forall in Hup. apply Forall_forall. intros p Hp.
  split; [| by apply Hup].
  rewrite generateEmbedPositions_multiples in Hp by lia.
  apply list_elem_of_fmap in Hp as (k & -> & Hk). apply elem_of_seqZ in Hk.
  pose proof (Z.div_pos totalPixels 2048 ltac:(lia) ltac:(lia)). nia.
Qed.

Lemma generateEmbedPositions_large_image_witness :
  generateEmbedPositions 40000 !! 2047%nat = Some (2047 * 19).
Proof.
  exact (proj1 (proj2 (generateEmbedPositions_large_image 40000 ltac:(lia)))
           2047%nat ltac:(lia)).
Defined.

(** ** What the content hash depends on *)

Section Hash.

Implicit Types (buf : list byte) (ps : list Z).

Lemma clearLSBs_length buf ps : length (clearLSBs buf ps) = length buf.
Proof.
  unfold clearLSBs. revert buf. induction ps as [|p ps IH]; intros buf; simpl;
    [reflexivity |].
  rewrite IH, clear_step_alter.
  destruct (0 <=? p); [apply length_alter | reflexivity].
Qed.

Lemma clearLSBs_lookup buf ps (j : nat) :
  clearLSBs buf ps !! j
  = if decide (Z.of_nat j ∈ ps) then clear_bit <$> buf !! j else buf !! j.
Proof.
  case_decide; [by apply clearLSBs_lookup_in | by apply clearLSBs_lookup_out].
Qed.

Lemma clearLSBs_same_set buf ps1 ps2 :
  (forall p, p ∈ ps1 <-> p ∈ ps2) -> clearLSBs buf ps1 = clearLSBs buf ps2.
Proof.
  intros H. apply list_eq; intros j. rewrite !clearLSBs_lookup.
  destruct (decide (Z.of_nat j ∈ ps1)) as [H1 | H1];
    destruct (decide (Z.of_nat j ∈ ps2)) as [H2 | H2]; try reflexivity.
  - by apply H in H1.
  - by apply H in H2.
Qed.

Lemma clearLSBs_agree buf1 buf2 ps :
  length buf1 = length buf2 ->
  (forall (j : nat) (b1 b2 : byte),
     buf1 !! j = Some b1 -> buf2 !! j = Some b2 ->
     if decide (Z.of_nat j ∈ ps) then upper_bits b1 = upper_bits b2 else b1 = b2) ->
  clearLSBs buf1 ps = clearLSBs buf2 ps.
Proof.
  intros Hlen H. apply list_eq; intros j. rewrite !clearLSBs_lookup.
  destruct (buf1 !! j) as [b1|] eqn:H1; destruct (buf2 !! j) as [b2|] eqn:H2.
  - specialize (H j b1 b2 H1 H2). case_decide; simpl.
    + f_equal. by apply upper_bits_clear_eq.
    + by rewrite H.
  - apply lookup_lt_Some in H1. apply lookup_ge_None in H2. lia.
  - apply lookup_lt_Some in H2. apply lookup_ge_None in H1. lia.
  - by case_decide.
Qed.

End Hash.

(** X7. The content hash depends on the positions only as a set: two
    position sequences with the same elements, in any order and with any
    repetitions, give the same hash of the same buffer. *)
Theorem computeImageHash_same_position_set (rt : Runtime) (buf : list byte) (positions1 positions2 : list Z) :
  (forall p : Z, p ∈ positions1 <-> p ∈ positions2) ->
  computeImageHash rt buf positions1 = computeImageHash rt buf positions2.
Proof.
  intros H. unfold computeImageHash. by rewrite (clearLSBs_same_set buf _ _ H).
Qed.

Lemma computeImageHash_same_position_set_witness :
  computeImageHash Demo.rt [x01; x02; x03] [2; 0; 2]
  = computeImageHash Demo.rt [x01; x02; x03] [0; 2].
Proof.
  apply computeImageHash_same_position_set.
  intros p. rewrite !elem_of_cons, !elem_of_nil. tauto.
Defined.

(** X8. The content hash ignores the least significant bits at the
    positions and nothing else that two buffers of one length can differ
    in: buffers that agree on the upper seven bits of the bytes at the
    positions and on every other byte have the same hash. *)
Theorem computeImageHash_ignores_embedded_bits (rt : Runtime) (buf1 buf2 : list byte) (positions : list Z) :
  length buf1 = length buf2 ->
  (forall (j : nat) (b1 b2 : byte),
     buf1 !! j = Some b1 -> buf2 !! j = Some b2 ->
     if decide (Z.of_nat j ∈ positions)
     then upper_bits b1 = upper_bits b2 else b1 = b2) ->
  computeImageHash rt buf1 positions = computeImageHash rt buf2 positions.
Proof.
  intros Hlen H. unfold computeImageHash.
  by rewrite (clearLSBs_agree buf1 buf2 positions Hlen H).
Qed.

Lemma computeImageHash_ignores_embedded_bits_witness :
  computeImageHash Demo.rt [x06; x09] [0] = computeImageHash Demo.rt [x07; x09] [0].
Proof.
  apply computeImageHash_ignores_embedded_bits; [reflexivity |].
  intros [|[|j]] b1 b2 H1 H2; simpl in H1, H2; try discriminate.
  - injection H1 as <-. injection H2 as <-. reflexivity.
  - injection H1 as <-. injection H2 as <-. reflexivity.
Defined.

(** ** The integrity score and the integrity loss *)

Section Integrity.

Variable rt : Runtime.

Lemma extractLSB_nothing_read (buf : list byte) (ps : list Z) :
  some_position_read buf ps = false -> extractLSB buf ps = EmptyString.
Proof.
  unfold some_position_read. induction ps as [|p ps IH]; [reflexivity |].
  simpl. intros H. apply orb_false_iff in H as [Hp H].
  rewrite extractLSB_cons, IH by assumption.
  apply Z.ltb_ge in Hp. by rewrite extracted_at_beyond.
Qed.

Lemma extractLSB_something_read (buf : list byte) (ps : list Z) :
  some_position_read buf ps = true -> extractLSB buf ps <> EmptyString.
Proof.
  unfold some_position_read. intros H Hempty.
  pose proof (extractLSB_length buf ps) as Hl. rewrite Hempty in Hl. simpl in Hl.
  apply existsb_exists in H as (p & Hin & Hp).
  assert (Hf : In p (List.filter (fun p => p <? buffer_length buf) ps))
    by (apply filter_In; auto).
  destruct (List.filter _ ps); [contradiction | discriminate].
Qed.

Lemma integrity_score_extracted (buf : list byte) (ps : list Z) :
  calculateIntegrityScore (extractLSB buf ps)
  = if some_position_read buf ps then JS.Num 100 else JS.NaN.
Proof.
  destruct (some_position_read buf ps) eqn:H.
  - apply calculateIntegrityScore_bitstring;
      [apply extractLSB_bitstring | by apply extractLSB_something_read].
  - by rewrite extractLSB_nothing_read.
Qed.

(** Every attempt carries the score 100 or [NaN]. *)
Lemma attempts_of_score (pd : list byte) (images : list AuthenticatedImage) (attempt : Attempt) :
  attempt ∈ attempts_of pd images ->
  at_integrityScore attempt = JS.Num 100 \/ at_integrityScore attempt = JS.NaN.
Proof.
  unfold attempts_of. intros H. apply list_elem_of_In, in_flat_map in H.
  destruct H as (image & _ & H). unfold extraction_body in H.
  destruct (embedPositions image) as [| positions |]; simpl in H; try contradiction.
  destruct H as [<- | []]. simpl. rewrite integrity_score_extracted.
  destruct (some_position_read pd positions); auto.
Qed.

Lemma attemptSignatureExtraction_score (st : Storage) (pd : list byte) (attempt : Attempt) :
  attempt ∈ attemptSignatureExtraction st pd ->
  at_integrityScore attempt = JS.Num 100 \/ at_integrityScore attempt = JS.NaN.
Proof.
  unfold attemptSignatureExtraction.
  destruct (getAllAuthenticatedImages st) as [images | e].
  - rewrite attempt_loop. simpl. apply attempts_of_score.
  - intros H. by apply elem_of_nil in H.
Qed.

(** What [verifyImage] can return. *)
Lemma verifyImage_result (st : Storage) (imageBuffer : list byte) (result : VerificationResult) :
  verifyImage rt st imageBuffer = Return result ->
  (isValid result = false /\ integrityScore result = JS.Num 0
   /\ imageId result = None)
  \/ (isValid result = true
      /\ (integrityScore result = JS.Num 100 \/ integrityScore result = JS.NaN)).
Proof.
  unfold verifyImage. destruct (sharp_raw rt imageBuffer) as [raw | e]; simpl.
  - destruct (verify_loop_cases rt (data raw)
                (attemptSignatureExtraction st (data raw)))
      as [-> | (a & Hin & ->)]; simpl; intros [= <-].
    + by left.
    + right. split; [reflexivity |]. simpl.
      by apply (attemptSignatureExtraction_score st (data raw)).
  - intros [= <-]. by left.
Qed.

End Integrity.

(** X9. The integrity score of extracted bits takes two values only: 100
    when at least one position passes the guard [pos < pixelData.length],
    and [NaN] (from [0 / 0]) when none does. *)
Theorem integrity_score_of_extraction (pixelData : list byte) (positions : list Z) :
  calculateIntegrityScore (extractLSB pixelData positions)
  = if some_position_read pixelData positions then JS.Num 100 else JS.NaN.
Proof. apply integrity_score_extracted. Qed.

(** X10. In the result of [simulateAttack] the integrity loss says no more
    than [verificationPassed]: it is 100 whenever verification did not
    pass, and 0 (or [NaN]) whenever it passed. *)
Theorem integrityLoss_follows_verificationPassed (rt : Runtime) (st : Storage) (originalBuffer : list byte) (attack : string) (image : AuthenticatedImage) (result : AttackResult) :
  simulateAttack rt st originalBuffer attack image = Return result ->
  (verificationPassed result = false -> integrityLoss result = JS.Num 100)
  /\ (verificationPassed result = true ->
      integrityLoss result = JS.Num 0 \/ integrityLoss result = JS.NaN).
Proof.
  intros H.
  apply simulateAttack_inv in H as (attacked & vr & _ & Hv & _ & Hp & Hl & _).
  rewrite Hp, Hl.
  destruct (verifyImage_result rt st attacked.2 vr Hv)
    as [(Hf & Hs & _) | (Ht & [Hs | Hs])]; rewrite Hs; split; intros Hq;
    try congruence; try reflexivity; auto.
Qed.

Lemma integrityLoss_follows_verificationPassed_witness :
  exists result,
    simulateAttack Demo.rt (store_of Demo.images) Demo.stego "jpeg_compression" Demo.signed
    = Return result
    /\ integrityLoss result = JS.Num 100.
Proof.
  eexists. split; [reflexivity |].
  apply (proj1 (integrityLoss_follows_verificationPassed Demo.rt
                  (store_of Demo.images) Demo.stego "jpeg_compression"
                  Demo.signed _ eq_refl)).
  reflexivity.
Defined.

(** X11. [verifyImage] never throws.  When the image cannot be decoded the
    result is invalid with the message of the error; when the store cannot
    be read the error is swallowed and the result is the one for "no valid
    signature"; in every result that is not valid the score is 0 and no
    image id, signature or metadata is given. *)
Theorem verifyImage_always_returns (rt : Runtime) (st : Storage) (imageBuffer : list byte) :
  (exists result, verifyImage rt st imageBuffer = Return result
     /\ (isValid result = false ->
         integrityScore result = JS.Num 0 /\ imageId result = None
         /\ extractedSignature result = None /\ imageMetadata result = None
         /\ errorMessage result <> None))
  /\ (forall e, sharp_raw rt imageBuffer = Throw e ->
        verifyImage rt st imageBuffer
        = Return (failure_result e))
  /\ (forall raw e, sharp_raw rt imageBuffer = Return raw ->
        getAllAuthenticatedImages st = Throw e ->
        verifyImage rt st imageBuffer = Return no_signature_result).
Proof.
  split; [| split].
  - destruct (verifyImage_cases rt st imageBuffer) as [[e ->] | [-> | [a ->]]];
      eexists; (split; [reflexivity |]); simpl; intros H;
      try discriminate; by repeat split.
  - intros e He. unfold verifyImage. by rewrite He.
  - intros raw e Hraw He. unfold verifyImage, attemptSignatureExtraction.
    by rewrite Hraw, He.
Qed.

Lemma verifyImage_always_returns_witness :
  verifyImage Demo.rt {| getAllAuthenticatedImages := Throw JS.OtherValue |} Demo.stego
  = Return no_signature_result
  /\ errorMessage <$> verifyImage Demo.rt (store_of Demo.images) []
     = Return (Some "Verification failed: Input Buffer is empty").
Proof.
  split.
  - exact (proj2 (proj2 (verifyImage_always_returns Demo.rt
                           {| getAllAuthenticatedImages := Throw JS.OtherValue |}
                           Demo.stego))
             _ JS.OtherValue eq_refl eq_refl).
  - rewrite (proj1 (proj2 (verifyImage_always_returns Demo.rt
                             (store_of Demo.images) []))
               (JS.ErrorObj "Input Buffer is empty") eq_refl).
    reflexivity.
Defined.

(** ** Signature schemes *)

Section Schemes.

Lemma supported_scheme_dec (signatureType : string) :
  supported_scheme signatureType \/ ¬ supported_scheme signatureType.
Proof.
  unfold supported_scheme.
  destruct (String.eqb_spec signatureType "RSA-2048");
    destruct (String.eqb_spec signatureType "RSA-4096");
    destruct (String.eqb_spec signatureType "ECDSA-256"); tauto.
Qed.

Lemma getSigningAlgorithm_supported (signatureType : string) :
  supported_scheme signatureType ->
  getSigningAlgorithm signatureType = Return "sha256".
Proof. by intros [-> | [-> | ->]]. Qed.

Lemma getSigningAlgorithm_unsupported (signatureType : string) :
  ¬ supported_scheme signatureType ->
  getSigningAlgorithm signatureType
  = Throw (JS.ErrorObj ("Unknown signature type: " +:+ signatureType)).
Proof.
  unfold supported_scheme. intros H.
  apply getSigningAlgorithm_unknown; intros ->; tauto.
Qed.

Lemma sign_unsupported (srt : SigningRuntime) (data privateKey signatureType : string) :
  ¬ supported_scheme signatureType ->
  sign srt data privateKey signatureType
  = Throw (JS.ErrorObj ("Signing failed: Unknown signature type: " +:+ signatureType)).
Proof.
  intros H. unfold sign. by rewrite getSigningAlgorithm_unsupported.
Qed.

(** When [sign] returns, the scheme is supported and the signature is the
    one of the primitive with the digest SHA-256. *)
Lemma sign_inv (srt : SigningRuntime) (data privateKey signatureType signature : string) :
  sign srt data privateKey signatureType = Return signature ->
  supported_scheme signatureType
  /\ crypto_sign srt "sha256" data privateKey = Return signature.
Proof.
  unfold sign. destruct (supported_scheme_dec signatureType) as [Hs | Hs].
  - rewrite (getSigningAlgorithm_supported _ Hs). simpl.
    destruct (crypto_sign srt "sha256" data privateKey); simpl;
      [intros [= ->]; by split | discriminate].
  - rewrite (getSigningAlgorithm_unsupported _ Hs). discriminate.
Qed.

Lemma generateKeyPair_unsupported (srt : SigningRuntime) (signatureType : string) :
  ¬ supported_scheme signatureType ->
  generateKeyPair srt signatureType
  = Throw (JS.ErrorObj
             ("Key generation failed: Unsupported signature type: " +:+ signatureType)).
Proof.
  unfold supported_scheme, generateKeyPair. intros H.
  destruct (String.eqb_spec signatureType "RSA-2048"); [tauto |].
  destruct (String.eqb_spec signatureType "RSA-4096"); [tauto |].
  destruct (String.eqb_spec signatureType "ECDSA-256"); [tauto |].
  reflexivity.
Qed.

End Schemes.

(** X12. The services agree on the schemes: [getSigningAlgorithm] returns
    exactly for RSA-2048, RSA-4096 and ECDSA-256, and then always the
    digest ["sha256"].  For any other scheme key generation and signing
    throw an [Error] that names the scheme, while [verify] answers
    [false]. *)
Theorem scheme_support (rt : Runtime) (srt : SigningRuntime) (signatureType data key signature : string) :
  (forall algorithm,
     getSigningAlgorithm signatureType = Return algorithm
     <-> supported_scheme signatureType /\ algorithm = "sha256")
  /\ (¬ supported_scheme signatureType ->
      generateKeyPair srt signatureType
      = Throw (JS.ErrorObj
                 ("Key generation failed: Unsupported signature type: "
                  +:+ signatureType))
      /\ sign srt data key signatureType
         = Throw (JS.ErrorObj
                    ("Signing failed: Unknown signature type: " +:+ signatureType))
      /\ verify rt data signature key signatureType = Return false).
Proof.
  split.
  - intros algorithm. split.
    + intros H. destruct (supported_scheme_dec signatureType) as [Hs | Hs].
      * rewrite (getSigningAlgorithm_supported _ Hs) in H.
        injection H as <-. by split.
      * rewrite (getSigningAlgorithm_unsupported _ Hs) in H. discriminate.
    + intros [Hs ->]. by apply getSigningAlgorithm_supported.
  - intros Hs. split; [by apply generateKeyPair_unsupported |].
    split; [by apply sign_unsupported |].
    unfold verify, verify_body. by rewrite (getSigningAlgorithm_unsupported _ Hs).
Qed.

Lemma scheme_support_witness :
  generateKeyPair DemoSigning.srt "DSA-1024"
  = Throw (JS.ErrorObj "Key generation failed: Unsupported signature type: DSA-1024").
Proof.
  apply (proj2 (scheme_support Demo.rt DemoSigning.srt "DSA-1024" "d" "k" "s")).
  unfold supported_scheme. intros [H | [H | H]]; discriminate.
Defined.

(** ** [authenticateImage] *)

Section Authenticate.

Variables (rt : Runtime) (srt : SigningRuntime).

(** What holds when [authenticateImage] returns. *)
Lemma authenticateImage_inv (imageBuffer : list byte) (signatureType : string) (keyPair : KeyPair) (result : EmbedResult) :
  authenticateImage rt srt imageBuffer signatureType keyPair = Return result ->
  exists (raw : RawImage) (signature : string) (png : list byte),
    sharp_raw rt imageBuffer = Return raw
    /\ sign srt
         (computeImageHash rt (data raw)
            (generateEmbedPositions (width raw * height raw * channels raw)))
         (kp_privateKey keyPair) signatureType
       = Return signature
    /\ sharp_png srt
         (embedLSB (data raw) (signatureToBits signature)
            (generateEmbedPositions (width raw * height raw * channels raw)))
         (width raw) (height raw) (channels raw)
       = Return png
    /\ stegoImageData result = base64_encode rt png
    /\ signatureHash result = sha256_hex_text srt signature
    /\ er_embedPositions result
       = generateEmbedPositions (width raw * height raw * channels raw).
Proof.
  unfold authenticateImage.
  destruct (sharp_raw rt imageBuffer) as [raw | e]; simpl; [| discriminate].
  destruct (sign srt _ (kp_privateKey keyPair) signatureType)
    as [signature | e] eqn:Hsign; simpl; [| discriminate].
  destruct (sharp_png srt _ (width raw) (height raw) (channels raw))
    as [png | e] eqn:Hpng; simpl; [| discriminate].
  intros [= <-]. exists raw, signature, png. by repeat split.
Qed.

Lemma authenticateImage_throws (imageBuffer : list byte) (signatureType : string) (keyPair : KeyPair) (e : JS.thrown) :
  authenticateImage rt srt imageBuffer signatureType keyPair = Throw e ->
  exists message : string,
    e = JS.ErrorObj ("Steganographic embedding failed: " +:+ message).
Proof.
  unfold authenticateImage.
  destruct (sharp_raw rt imageBuffer) as [raw | e1]; simpl;
    [| intros [= <-]; eauto].
  destruct (sign srt _ (kp_privateKey keyPair) signatureType) as [signature | e2];
    simpl; [| intros [= <-]; eauto].
  destruct (sharp_png srt _ (width raw) (height raw) (channels raw)) as [png | e3];
    simpl; [discriminate | intros [= <-]; eauto].
Qed.

End Authenticate.

(** X13. Every failure of [authenticateImage] is an [Error] whose message
    starts with ["Steganographic embedding failed: "]: for an image that
    cannot be decoded the message of the decoder follows, and for a scheme
    that is not supported the message is the one of [sign], wrapped. *)
Theorem authenticateImage_failures (rt : Runtime) (srt : SigningRuntime) (imageBuffer : list byte) (signatureType : string) (keyPair : KeyPair) :
  (forall e, authenticateImage rt srt imageBuffer signatureType keyPair = Throw e ->
     exists message : string,
       e = JS.ErrorObj ("Steganographic embedding failed: " +:+ message))
  /\ (forall e, sharp_raw rt imageBuffer = Throw e ->
        authenticateImage rt srt imageBuffer signatureType keyPair
        = Throw (JS.ErrorObj
                   ("Steganographic embedding failed: " +:+ JS.message_of e)))
  /\ (forall raw, sharp_raw rt imageBuffer = Return raw ->
        ¬ supported_scheme signatureType ->
        authenticateImage rt srt imageBuffer signatureType keyPair
        = Throw (JS.ErrorObj
                   ("Steganographic embedding failed: Signing failed: Unknown signature type: "
                    +:+ signatureType))).
Proof.
  split; [apply authenticateImage_throws |]. split.
  - intros e He. unfold authenticateImage. by rewrite He.
  - intros raw Hraw Hs. unfold authenticateImage. rewrite Hraw. simpl.
    by rewrite (sign_unsupported srt _ _ _ Hs).
Qed.

Lemma authenticateImage_failures_witness :
  authenticateImage Demo.rt DemoSigning.srt Demo.stego "DSA-1024" DemoSigning.keyPair
  = Throw (JS.ErrorObj
             "Steganographic embedding failed: Signing failed: Unknown signature type: DSA-1024").
Proof.
  apply (proj2 (proj2 (authenticateImage_failures Demo.rt DemoSigning.srt
                         Demo.stego "DSA-1024" DemoSigning.keyPair))
           {| data := Demo.stego; width := 1; height := 1; channels := 4 |}
           eq_refl).
  unfold supported_scheme. intros [H | [H | H]]; discriminate.
Defined.

(** X14. An image authenticated with a signature of 512 lower-case
    hexadecimal digits (RSA-2048) verifies against its own record: for an
    image of at least 2048 samples whose stego file decodes to the pixels
    that were encoded, and a key pair whose public key accepts the
    signature, the signature extracted from the stego image at the stored
    positions is the signature that was embedded, and the record
    verifies. *)
Theorem authenticated_image_verifies (rt : Runtime) (srt : SigningRuntime) (imageBuffer : list byte) (scheme : string) (keyPair : KeyPair) (result : EmbedResult) (raw stego : RawImage) (signature : string) (image : AuthenticatedImage) :
  authenticateImage rt srt imageBuffer scheme keyPair = Return result ->
  sharp_raw rt imageBuffer = Return raw ->
  buffer_length (data raw) = width raw * height raw * channels raw ->
  2048 <= buffer_length (data raw) ->
  sign srt (computeImageHash rt (data raw) (er_embedPositions result))
    (kp_privateKey keyPair) scheme = Return signature ->
  lower_hex_string signature = true ->
  String.length signature = 512%nat ->
  crypto_verify rt "sha256"
    (computeImageHash rt (data raw) (er_embedPositions result))
    (kp_publicKey keyPair) signature = Return true ->
  sharp_raw rt (base64_decode rt (stegoImageData result)) = Return stego ->
  data stego
  = embedLSB (data raw) (signatureToBits signature) (er_embedPositions result) ->
  embedPositions image = JArray (er_embedPositions result) ->
  publicKey image = kp_publicKey keyPair ->
  signatureType image = scheme ->
  bitsToSignature (extractLSB (data stego) (er_embedPositions result)) = signature
  /\ signatureHash result = sha256_hex_text srt signature
  /\ record_verifies rt (data stego) image.
Proof.
  intros Hauth Hraw Hsize Hlarge Hsign Hhex Hlen Hkey Hdecode Hpixels Hpos Hpub Hscheme.
  apply authenticateImage_inv in Hauth
    as (raw0 & signature0 & png & Hraw0 & Hsign0 & _ & _ & Hhash & Hps).
  rewrite Hraw in Hraw0. injection Hraw0 as <-.
  rewrite <- Hps in Hsign0. rewrite Hsign in Hsign0. injection Hsign0 as <-.
  rewrite <- Hsize in Hps.
  assert (Hnd : NoDup (er_embedPositions result)).
  { rewrite Hps. by apply strictly_increasing_NoDup, generateEmbedPositions_increasing. }
  assert (Hin : Forall (in_buffer (data raw)) (er_embedPositions result)).
  { rewrite Hps. apply generateEmbedPositions_inside. lia. }
  assert (Hcount : length (er_embedPositions result) = 2048%nat).
  { rewrite Hps. apply generateEmbedPositions_length. lia. }
  assert (Hrec : bitsToSignature (extractLSB (data stego) (er_embedPositions result))
                 = signature).
  { rewrite Hpixels. apply recovered_exact; try assumption.
    by rewrite Hcount, Hlen. }
  split; [exact Hrec |]. split; [exact Hhash |].
  exists (er_embedPositions result). split; [exact Hpos |].
  rewrite Hrec, Hpub, Hscheme, Hpixels.
  unfold computeImageHash.
  rewrite clearLSBs_embedLSB by (by apply signatureToBits_bitstring).
  apply sign_inv in Hsign as [Hs _].
  unfold verify, verify_body. rewrite (getSigningAlgorithm_supported _ Hs). simpl.
  unfold computeImageHash in Hkey. by rewrite Hkey.
Qed.

Section DemoAuthenticate.

Let hash : string :=
  computeImageHash Demo.rt (data DemoSigning.raw) (er_embedPositions DemoSigning.result).

Lemma demo_authenticate :
  authenticateImage Demo.rt DemoSigning.srt DemoSigning.picture "RSA-2048"
    DemoSigning.keyPair
  = Return DemoSigning.result.
Proof. vm_compute. reflexivity. Qed.

Lemma demo_decodes : sharp_raw Demo.rt DemoSigning.picture = Return DemoSigning.raw.
Proof. vm_compute. reflexivity. Qed.

Lemma demo_size :
  buffer_length (data DemoSigning.raw)
  = width DemoSigning.raw * height DemoSigning.raw * channels DemoSigning.raw.
Proof. vm_compute. reflexivity. Qed.

Lemma demo_large : 2048 <= buffer_length (data DemoSigning.raw).
Proof. vm_compute. discriminate. Qed.

Lemma demo_sign :
  sign DemoSigning.srt hash (kp_privateKey DemoSigning.keyPair) "RSA-2048"
  = Return (kp_privateKey DemoSigning.keyPair).
Proof. reflexivity. Qed.

Lemma demo_hex : lower_hex_string (kp_privateKey DemoSigning.keyPair) = true.
Proof. vm_compute. reflexivity. Qed.

Lemma demo_digits : String.length (kp_privateKey DemoSigning.keyPair) = 512%nat.
Proof. vm_compute. reflexivity. Qed.

Lemma demo_key :
  crypto_verify Demo.rt "sha256" hash (kp_publicKey DemoSigning.keyPair)
    (kp_privateKey DemoSigning.keyPair)
  = Return true.
Proof. vm_compute. reflexivity. Qed.

Lemma demo_stego_decodes :
  sharp_raw Demo.rt (base64_decode Demo.rt (stegoImageData DemoSigning.result))
  = Return DemoSigning.stego_raw.
Proof. vm_compute. reflexivity. Qed.

Lemma demo_stego_pixels :
  data DemoSigning.stego_raw
  = embedLSB (data DemoSigning.raw)
      (signatureToBits (kp_privateKey DemoSigning.keyPair))
      (er_embedPositions DemoSigning.result).
Proof. vm_compute. reflexivity. Qed.

End DemoAuthenticate.

Lemma authenticated_image_verifies_witness :
  record_verifies Demo.rt (data DemoSigning.stego_raw) DemoSigning.record.
Proof.
  exact (proj2 (proj2 (authenticated_image_verifies Demo.rt DemoSigning.srt
                         DemoSigning.picture "RSA-2048" DemoSigning.keyPair
                         DemoSigning.result DemoSigning.raw DemoSigning.stego_raw
                         (kp_privateKey DemoSigning.keyPair) DemoSigning.record
                         demo_authenticate demo_decodes demo_size demo_large
                         demo_sign demo_hex demo_digits demo_key
                         demo_stego_decodes demo_stego_pixels
                         eq_refl eq_refl eq_refl))).
Defined.

(** ** The route [POST /api/verify] *)

(** X15. The verify route writes a log row only for a verification that
    succeeded: the table is unchanged when no file was uploaded and when
    the verification result is not valid, and a row that is written has
    [verificationResult] true and the id of the matched record. *)
Theorem verify_route_logs_only_matches (rt : Runtime) (st : Storage) (table table' : LogTable) (file : option (list byte)) (response : Response) :
  verify_route rt st table file = (response, table') ->
  (rows table' = rows table
   \/ exists (entry : VerificationLogEntry) (result : VerificationResult),
        rows table' = rows table ++ [entry]
        /\ response = Json result
        /\ isValid result = true
        /\ log_verificationResult entry = true
        /\ imageId result = Some (log_imageId entry))
  /\ (forall result, response = Json result -> isValid result = false ->
        rows table' = rows table)
  /\ (file = None ->
      response = Status 400 "No image file provided" /\ rows table' = rows table).
Proof.
  unfold verify_route. intros H. destruct file as [buffer |].
  - destruct (verifyImage rt st buffer) as [result | e] eqn:Hv.
    + assert (Hid : isValid result = false -> imageId result = None).
      { destruct (verifyImage_cases rt st buffer) as [[e He] | [He | [a He]]];
          rewrite He in Hv; injection Hv as <-; simpl; [reflexivity.. | discriminate]. }
      destruct (truthy_id (imageId result)) as [n |] eqn:Hn.
      * assert (Hsome : imageId result = Some n).
        { unfold truthy_id in Hn. destruct (imageId result) as [k |]; [| discriminate].
          destruct (k =? 0); [discriminate | congruence]. }
        assert (Hvalid : isValid result = true).
        { destruct (isValid result); [reflexivity |].
          rewrite Hid in Hsome by reflexivity. discriminate. }
        unfold createVerificationLog in H.
        destruct (insert_fails table _) as [e |]; injection H as <- <-.
        -- split; [by left |]. split; [discriminate | discriminate].
        -- split; [| split; [| discriminate]].
           ++ right. eexists _, result. simpl. by repeat split.
           ++ intros r [= <-] Hr. congruence.
      * injection H as <- <-. split; [by left |]. split; [reflexivity | discriminate].
    + injection H as <- <-. split; [by left |]. split; [discriminate | discriminate].
  - injection H as <- <-. split; [by left |]. split; [discriminate |].
    intros _. by split.
Qed.

Lemma verify_route_logs_only_matches_witness :
  rows (verify_route Demo.rt (store_of Demo.images) DemoSigning.table
          (Some Demo.unrelated)).2
  = rows DemoSigning.table.
Proof.
  apply (proj1 (proj2 (verify_route_logs_only_matches Demo.rt (store_of Demo.images)
                         DemoSigning.table _ (Some Demo.unrelated) _
                         (surjective_pairing _)))
           no_signature_result); reflexivity.
Defined.

(** ** What the hashed buffer detects *)

(** X16. The buffer that [computeImageHash] hashes changes with every
    change of the image other than the least significant bits at the
    positions: if two buffers give the same hashed buffer, they have the
    same length, the same upper seven bits in the bytes at the positions
    and the same bytes everywhere else. *)
Theorem hashed_buffer_detects_changes (buf1 buf2 : list byte) (positions : list Z) :
  clearLSBs buf1 positions = clearLSBs buf2 positions ->
  length buf1 = length buf2
  /\ forall (j : nat) (b1 b2 : byte),
       buf1 !! j = Some b1 -> buf2 !! j = Some b2 ->
       if decide (Z.of_nat j ∈ positions)
       then upper_bits b1 = upper_bits b2 else b1 = b2.
Proof.
  intros H. split.
  - by rewrite <- (clearLSBs_length buf1 positions), H, clearLSBs_length.
  - intros j b1 b2 H1 H2.
    assert (Hj : clearLSBs buf1 positions !! j = clearLSBs buf2 positions !! j)
      by (by rewrite H).
    rewrite !clearLSBs_lookup, H1, H2 in Hj.
    case_decide; simpl in Hj; injection Hj as Hj; [| exact Hj].
    by rewrite <- (upper_bits_clear_bit b1), Hj, upper_bits_clear_bit.
Qed.

Lemma hashed_buffer_detects_changes_witness :
  length [x06; x09] = length [x07; x09].
Proof.
  exact (proj1 (hashed_buffer_detects_changes [x06; x09] [x07; x09] [0] eq_refl)).
Defined.

(** ** Images of fewer than 2048 samples *)

Section SmallImage.

Lemma generateEmbedPositions_all_zero (totalPixels : Z) :
  0 < totalPixels < 2048 ->
  generateEmbedPositions totalPixels = replicate 2048 0.
Proof.
  intros Ht. rewrite generateEmbedPositions_multiples by lia.
  rewrite (Z.div_small totalPixels 2048) by lia.
  apply list_eq. intros i. rewrite list_lookup_fmap.
  destruct (decide (i < 2048)%nat) as [Hi | Hi].
  - rewrite lookup_seqZ_lt by lia. rewrite lookup_replicate_2 by assumption.
    simpl. f_equal. lia.
  - rewrite lookup_seqZ_ge by lia. symmetry. apply lookup_replicate_None. lia.
Qed.

Lemma extractLSB_replicate_zero (buf : list byte) (b : byte) (n : nat) :
  buf !! 0%nat = Some b ->
  extractLSB buf (replicate n 0) = repeat_char (lsb_char b) n.
Proof.
  intros Hb. induction n as [|n IH]; [reflexivity |].
  simpl replicate. rewrite extractLSB_cons, IH.
  by rewrite (extracted_at_inside buf 0 b ltac:(lia) Hb).
Qed.

Lemma bitsToSignature_all_equal (b : byte) :
  bitsToSignature (repeat_char (lsb_char b) 2048)
  = repeat_char (if Z.odd (JS.byte_val b) then "f"%char else "0"%char) 512.
Proof.
  unfold lsb_char. destruct (Z.odd (JS.byte_val b)); vm_compute; reflexivity.
Qed.

End SmallImage.

(** X17. For an image of fewer than 2048 samples every embed position is
    0: [embedLSB] writes at most the first sample, and the signature read
    from any such image is 512 copies of one digit, ['f'] when the first
    sample is odd and ['0'] when it is even. *)
Theorem small_image_loses_signature (buf : list byte) (bits : string) (first : byte) :
  0 < buffer_length buf < 2048 ->
  buf !! 0%nat = Some first ->
  generateEmbedPositions (buffer_length buf) = replicate 2048 0
  /\ (forall j : nat, (0 < j)%nat ->
        embedLSB buf bits (generateEmbedPositions (buffer_length buf)) !! j
        = buf !! j)
  /\ bitsToSignature (extractLSB buf (generateEmbedPositions (buffer_length buf)))
     = repeat_char (if Z.odd (JS.byte_val first) then "f"%char else "0"%char) 512.
Proof.
  intros Ht Hfirst.
  pose proof (generateEmbedPositions_all_zero _ Ht) as Hps.
  rewrite Hps. split; [reflexivity |]. split.
  - intros j Hj. apply embed_loop_other.
    intros Hin. apply elem_of_replicate in Hin as [Hz _]. lia.
  - rewrite (extractLSB_replicate_zero buf first 2048 Hfirst).
    apply bitsToSignature_all_equal.
Qed.

Lemma small_image_loses_signature_witness :
  bitsToSignature (extractLSB (embedLSB (replicate 1024 x06) (signatureToBits "a5")
                                 (generateEmbedPositions 1024))
                     (generateEmbedPositions 1024))
  = repeat_char "f" 512.
Proof.
  assert (Hfirst : embedLSB (replicate 1024 x06) (signatureToBits "a5")
                     (generateEmbedPositions 1024) !! 0%nat = Some x07)
    by (vm_compute; reflexivity).
  assert (Hlen : buffer_length (embedLSB (replicate 1024 x06) (signatureToBits "a5")
                                  (generateEmbedPositions 1024)) = 1024)
    by (vm_compute; reflexivity).
  pose proof (small_image_loses_signature
                (embedLSB (replicate 1024 x06) (signatureToBits "a5")
                   (generateEmbedPositions 1024))
                EmptyString x07) as H.
  rewrite Hlen in H.
  exact (proj2 (proj2 (H ltac:(lia) Hfirst))).
Defined.
